(** * The voice-assistant page: microphone permission and room connection

    A shallow embedding of the page component: the three asynchronous
    handlers of [Page] ([checkMicPermission], [requestMicPermission],
    [onConnectButtonClicked]), the device-failure listener
    ([onDeviceFailure]) and the two render functions that decide which
    buttons exist ([SimpleVoiceAssistant], [ControlBar]).

    An [async] function is a tree of synchronous effects and [await]s
    ([Prog]).  Two interpreters run such trees over the page state:
    - [run] answers every [await] at once from an oracle for the outside
      world, and gives the state and the settled value of the promise;
    - [exec] with [step] is the browser's event loop: a handler runs up to
      its next [await] and is parked there, and the environment later
      settles parked promises one at a time, in any order, between clicks.

    The [Room] of livekit-client is not part of the page's source.  It is
    kept abstract: a type, the [agentState] string the hook reports for it,
    and its reaction to what the page does to it. *)

From Stdlib Require Import ZArith.
From stdpp Require Import base tactics option list strings.

Set Default Proof Using "Type".
Set Warnings "-register-all".
Local Open Scope string_scope.
Local Open Scope list_scope.

(** ** Values of the host language *)

(** A thrown value.  The handlers only pass it on or log it. *)
Record JsError := mkError { name : string; message : string }.

(** A settled promise. *)
Inductive Result (A : Type) : Type :=
| Fulfilled (a : A)
| Rejected (e : JsError).
Arguments Fulfilled {A} a.
Arguments Rejected {A} e.

(** What [JSON.parse] can deliver, and [undefined] for an absent property.
    A number is kept as its literal. *)
Inductive JsValue : Type :=
| JUndefined
| JNull
| JBool (b : bool)
| JNumber (literal : string)
| JString (s : string)
| JArray (items : list JsValue)
| JObject (props : list (string * JsValue)).

(** The [PermissionState] of lib.dom: ['granted' | 'denied' | 'prompt']. *)
Inductive PermissionState := prompt | granted | denied.

#[global] Instance PermissionState_eq_dec : EqDecision PermissionState.
Proof. solve_decision. Defined.

(** A [MediaStream] is used through [getTracks()] only. *)
Definition Track := nat.
Record MediaStream := mkStream { getTracks : list Track }.

(** The [Response] of [fetch].  The page never reads [status]. *)
Record Response := mkResponse { status : Z }.

(** Own properties of a parsed object, first binding found. *)
Fixpoint own_property (props : list (string * JsValue)) (key : string) : JsValue :=
  match props with
  | [] => JUndefined
  | (k, v) :: rest => if String.eqb k key then v else own_property rest key
  end.

(** The TypeError of a property read on [null] or [undefined]. *)
Definition cannot_read (what key : string) : JsError :=
  mkError "TypeError" ("Cannot read properties of " +:+ what +:+ " (reading '" +:+ key +:+ "')").

(** [data.key]: reading a property of [null] or [undefined] throws, a
    missing property reads as [undefined], and so does any property of a
    boolean, a number, a string or an array that the page asks for. *)
Definition get_property (data : JsValue) (key : string) : Result JsValue :=
  match data with
  | JUndefined => Rejected (cannot_read "undefined" key)
  | JNull => Rejected (cannot_read "null" key)
  | JObject props => Fulfilled (own_property props key)
  | _ => Fulfilled JUndefined
  end.

(** [a ?? b] on an environment variable: only an absent one is nullish. *)
Definition nullish_coalescing (a : option string) (b : string) : string :=
  match a with
  | Some s => s
  | None => b
  end.

(** ** Asynchronous functions *)

(** The promises the page awaits. *)
Inductive Request : Type -> Type :=
| getUserMedia_audio : Request MediaStream
| fetch (href : string) : Request Response
| response_json (response : Response) : Request JsValue
| room_connect (serverUrl participantToken : JsValue) : Request unit
| setMicrophoneEnabled (enabled : bool) : Request unit.

(** The synchronous effects of the page.  [called] is a trace mark left on
    entry of a function; it changes nothing. *)
Inductive SyncOp :=
| setMicPermission (p : PermissionState)
| alert (msg : string)
| console_log (msg : string) (e : JsError)
| console_error (msg : string) (e : JsError)
| track_stop (t : Track)
| called (fn : string).

Inductive Prog (A : Type) : Type :=
| Ret (a : A)
| Throw (e : JsError)
| Do (op : SyncOp) (k : Prog A)
| Await (X : Type) (rq : Request X) (k : Result X -> Prog A).
Arguments Ret {A} a.
Arguments Throw {A} e.
Arguments Do {A} op k.
Arguments Await {A X} rq k.

Fixpoint bind {A B : Type} (t : Prog A) (f : A -> Prog B) : Prog B :=
  match t with
  | Ret a => f a
  | Throw e => Throw e
  | Do op k => Do op (bind k f)
  | Await rq k => Await rq (fun r => bind (k r) f)
  end.

(** [try { t } catch (error) { h error }]: the handler itself is not
    protected. *)
Fixpoint try_catch {A : Type} (t : Prog A) (h : JsError -> Prog A) : Prog A :=
  match t with
  | Ret a => Ret a
  | Throw e => h e
  | Do op k => Do op (try_catch k h)
  | Await rq k => Await rq (fun r => try_catch (k r) h)
  end.

Definition lift {A : Type} (r : Result A) : Prog A :=
  match r with
  | Fulfilled a => Ret a
  | Rejected e => Throw e
  end.

Definition await {X : Type} (rq : Request X) : Prog X := Await rq lift.
Definition do (op : SyncOp) : Prog unit := Do op (Ret tt).

(** Sequencing is written with stdpp's monad notation: [x ← t; k]. *)
#[global] Instance Prog_ret : MRet Prog := @Ret.
#[global] Instance Prog_bind : MBind Prog := fun A B f t => bind t f.

(** [stream.getTracks().forEach(track => track.stop())] *)
Fixpoint stop_all (tracks : list Track) : Prog unit :=
  match tracks with
  | [] => Ret tt
  | t :: rest => Do (track_stop t) (stop_all rest)
  end.

(** ** The handlers of [Page] *)

(** What the page reads from its host: the build-time environment variable,
    [window.location.origin], and the [URL] constructor, which gives the
    serialised address ([url.toString()]) or throws a TypeError. *)
Record Host := mkHost {
  NEXT_PUBLIC_CONN_DETAILS_ENDPOINT : option string;
  location_origin : string;
  new_URL : string -> string -> Result string
}.

Definition microphone_denied_notice : string :=
  "Microphone access was denied. Please check your browser settings.".

Definition device_failure_notice : string :=
  "Error acquiring camera or microphone permissions. Please make sure you grant the necessary permissions in your browser and reload the tab".

(** Lines 24-37. *)
Definition checkMicPermission : Prog bool :=
  try_catch
    (stream ← await getUserMedia_audio;
     stop_all (getTracks stream);;
     do (setMicPermission granted);;
     mret true)
    (fun error =>
       do (console_log "Microphone permission not granted:" error);;
       do (setMicPermission prompt);;
       mret false).

(** Lines 66-69: the address of the credential endpoint. *)
Definition connection_details_endpoint (host : Host) : string :=
  nullish_coalescing (NEXT_PUBLIC_CONN_DETAILS_ENDPOINT host) "/api/connection-details".

(** Lines 56-75.  The first line is the trace mark of the entry.  Both
    arguments of [room.connect] are read from the parsed body before the
    call. *)
Definition onConnectButtonClicked (host : Host) : Prog unit :=
  do (called "onConnectButtonClicked");;
  url ← lift (new_URL host (connection_details_endpoint host) (location_origin host));
  response ← await (fetch url);
  connectionDetailsData ← await (response_json response);
  serverUrl ← lift (get_property connectionDetailsData "serverUrl");
  participantToken ← lift (get_property connectionDetailsData "participantToken");
  await (room_connect serverUrl participantToken);;
  await (setMicrophoneEnabled true).

(** Lines 45-49: the [catch] block of [requestMicPermission]. *)
Definition requestMicPermission_catch (error : JsError) : Prog unit :=
  do (console_error "Error acquiring microphone permissions:" error);;
  do (setMicPermission denied);;
  do (alert microphone_denied_notice).

(** Lines 39-50. *)
Definition requestMicPermission (host : Host) : Prog unit :=
  try_catch
    (stream ← await getUserMedia_audio;
     stop_all (getTracks stream);;
     do (setMicPermission granted);;
     onConnectButtonClicked host)
    requestMicPermission_catch.

(** Lines 208-213. *)
Definition onDeviceFailure (error : JsError) : Prog unit :=
  do (console_error "" error);;
  do (alert device_failure_notice).

(** ** What is rendered *)

Inductive Button :=
| RequestMicrophoneAccess
| StartConversation
| Disconnect.

#[global] Instance Button_eq_dec : EqDecision Button.
Proof. solve_decision. Defined.

(** Lines 110-142: the buttons of [SimpleVoiceAssistant] that reach the
    handlers (the feedback link does not).  A button is taken to be gone as
    soon as its condition fails: the exit animation of [AnimatePresence] is
    not modelled. *)
Definition SimpleVoiceAssistant (agentState : string) (micPermission : PermissionState)
  : list Button :=
  if bool_decide (agentState = "disconnected") then
    if bool_decide (micPermission ≠ granted)
    then [RequestMicrophoneAccess]
    else [StartConversation]
  else [].

(** Lines 180-199: [ControlBar] shows the [DisconnectButton].  Here too the
    exit animation (lines 179-187) is not modelled. *)
Definition ControlBar (agentState : string) : list Button :=
  if bool_decide (agentState ≠ "disconnected") && bool_decide (agentState ≠ "connecting")
  then [Disconnect]
  else [].

(** ** The room *)

(** What happens to the room: the calls the page makes on it, their
    settling, the click on the SDK's [DisconnectButton], and whatever the
    SDK does on its own ([sdk_internal]: server events, agent activity). *)
Inductive RoomEvent :=
| connect_called (serverUrl participantToken : JsValue)
| connect_settled (r : Result unit)
| setMicrophoneEnabled_called (enabled : bool)
| setMicrophoneEnabled_settled (r : Result unit)
| disconnect_clicked
| sdk_internal (n : nat).

(** The room of the SDK, as far as the page sees it. *)
Class RoomSDK (Room : Type) := {
  new_Room : Room;
  agentState : Room -> string;
  react : RoomEvent -> Room -> Room
}.

(** ** The state of the page *)

(** What a trace remembers. *)
Inductive Entry : Type :=
| did (op : SyncOp)
| issued (X : Type) (rq : Request X)
| settled (X : Type) (rq : Request X) (r : Result X)
| unhandled_rejection (e : JsError).
Arguments issued {X} rq.
Arguments settled {X} rq r.

(** An [async] function parked at an [await]. *)
Record Task := mkTask {
  awaited_type : Type;
  awaited : Request awaited_type;
  resume : Result awaited_type -> Prog unit
}.
Arguments mkTask {awaited_type} awaited resume.

(** A function entry, with the permission and the agent state it found. *)
Record Call := mkCall {
  fn : string;
  permission_at_call : PermissionState;
  agentState_at_call : string
}.

Section Page.
Context {Room : Type} `{!RoomSDK Room}.

Record Page := mkPage {
  micPermission : PermissionState;     (* useState('prompt') *)
  room : Room;                         (* useState(new Room()) *)
  mounted : bool;                      (* the effects have run *)
  pending : list Task;
  trace : list Entry;
  calls : list Call
}.

Definition initial : Page := mkPage prompt new_Room false [] [] [].

Definition log (e : Entry) (p : Page) : Page :=
  let 'mkPage perm rm mnt pend tr cl := p in
  mkPage perm rm mnt pend (tr ++ [e]) cl.

Definition with_room (f : Room -> Room) (p : Page) : Page :=
  let 'mkPage perm rm mnt pend tr cl := p in
  mkPage perm (f rm) mnt pend tr cl.

Definition with_mounted (b : bool) (p : Page) : Page :=
  let 'mkPage perm rm _ pend tr cl := p in
  mkPage perm rm b pend tr cl.

Definition with_pending (f : list Task -> list Task) (p : Page) : Page :=
  let 'mkPage perm rm mnt pend tr cl := p in
  mkPage perm rm mnt (f pend) tr cl.

(** A synchronous effect.  The state setter is taken to act at once. *)
Definition perform (op : SyncOp) (p : Page) : Page :=
  let 'mkPage perm rm mnt pend tr cl := p in
  log (did op)
    match op with
    | setMicPermission q => mkPage q rm mnt pend tr cl
    | called f => mkPage perm rm mnt pend tr (cl ++ [mkCall f perm (agentState rm)])
    | _ => p
    end.

(** A promise is asked for: the two calls on the room reach the room. *)
Definition issue {X : Type} (rq : Request X) (p : Page) : Page :=
  log (issued rq)
    match rq with
    | room_connect serverUrl participantToken =>
        with_room (react (connect_called serverUrl participantToken)) p
    | setMicrophoneEnabled enabled =>
        with_room (react (setMicrophoneEnabled_called enabled)) p
    | _ => p
    end.

(** A promise settles. *)
Definition settling {X : Type} (rq : Request X) (r : Result X) (p : Page) : Page :=
  log (settled rq r)
    (match rq in Request X return Result X -> Page with
     | room_connect _ _ => fun r => with_room (react (connect_settled r)) p
     | setMicrophoneEnabled _ => fun r => with_room (react (setMicrophoneEnabled_settled r)) p
     | _ => fun _ => p
     end r).

(** *** Run to completion against an oracle *)

Definition World : Type := forall X : Type, Request X -> Result X.

Fixpoint run {A : Type} (w : World) (t : Prog A) (p : Page) : Page * Result A :=
  match t with
  | Ret a => (p, Fulfilled a)
  | Throw e => (p, Rejected e)
  | Do op k => run w k (perform op p)
  | Await rq k => let r := w _ rq in run w (k r) (settling rq r (issue rq p))
  end.

(** *** The event loop *)

(** Run a handler whose promise nobody holds, up to its first [await]. *)
Fixpoint exec (t : Prog unit) (p : Page) : Page :=
  match t with
  | Ret _ => p
  | Throw e => log (unhandled_rejection e) p
  | Do op k => exec k (perform op p)
  | Await rq k => with_pending (fun l => l ++ [mkTask rq k]) (issue rq p)
  end.

Definition void {A : Type} (t : Prog A) : Prog unit := t;; mret tt.

Definition buttons (p : Page) : list Button :=
  SimpleVoiceAssistant (agentState (room p)) (micPermission p)
  ++ ControlBar (agentState (room p)).

Inductive Answer : Type :=
| stream_answer (r : Result MediaStream)
| response_answer (r : Result Response)
| json_answer (r : Result JsValue)
| unit_answer (r : Result unit).

Definition decode {X : Type} (rq : Request X) (a : Answer) : option (Result X) :=
  match rq in Request X return option (Result X) with
  | getUserMedia_audio => match a with stream_answer r => Some r | _ => None end
  | fetch _ => match a with response_answer r => Some r | _ => None end
  | response_json _ => match a with json_answer r => Some r | _ => None end
  | room_connect _ _ => match a with unit_answer r => Some r | _ => None end
  | setMicrophoneEnabled _ => match a with unit_answer r => Some r | _ => None end
  end.

(** What the event loop can be handed: the effects of [Page] on mount
    (lines 52-54 and 77-83) and their clean-up, a click, the settling of the
    [i]-th parked promise, a [RoomEvent.MediaDevicesError] from the room, and
    a move of the SDK of its own. *)
Inductive Event : Type :=
| mount
| unmount
| click (b : Button)
| settle (i : nat) (a : Answer)
| MediaDevicesError (e : JsError)
| room_internal (n : nat).

Context (host : Host).

Definition onClick (b : Button) (p : Page) : Page :=
  match b with
  | RequestMicrophoneAccess => exec (requestMicPermission host) p
  | StartConversation => exec (onConnectButtonClicked host) p
  | Disconnect => with_room (react disconnect_clicked) p
  end.

(** One turn of the event loop.  An event with no receiver (a button
    that is not rendered, a listener that is not registered, a promise
    that is not pending) changes nothing. *)
Definition step (ev : Event) (p : Page) : Page :=
  match ev with
  | mount =>
      if mounted p then p
      else with_mounted true (exec (void checkMicPermission) p)
  | unmount => with_mounted false p
  | click b =>
      if mounted p && bool_decide (b ∈ buttons p) then onClick b p else p
  | settle i a =>
      match pending p !! i with
      | Some task =>
          match decode (awaited task) a with
          | Some r =>
              exec (resume task r)
                (settling (awaited task) r (with_pending (delete i) p))
          | None => p
          end
      | None => p
      end
  | MediaDevicesError e =>
      if mounted p then exec (onDeviceFailure e) p else p
  | room_internal n => with_room (react (sdk_internal n)) p
  end.

Definition steps (evs : list Event) (p : Page) : Page :=
  foldl (fun q ev => step ev q) p evs.

End Page.
Arguments Page : clear implicits.

(** ** A concrete host and room, for closed examples *)

(** Modelled from the spec: the livekit-client [Room] is imported by the
    page and is not part of its source.  This room follows the state machine
    of the session controller: a connect call enters [connecting], its
    success [connected], its failure [error], a disconnect [disconnected];
    nothing else moves it. *)
Definition spec_room_react (ev : RoomEvent) (state : string) : string :=
  match ev with
  | connect_called _ _ => "connecting"
  | connect_settled (Fulfilled _) => "connected"
  | connect_settled (Rejected _) => "error"
  | disconnect_clicked => "disconnected"
  | _ => state
  end.

#[global] Instance spec_room : RoomSDK string := {
  new_Room := "disconnected";
  agentState := fun state => state;
  react := spec_room_react
}.

(** A development host: no environment variable, and relative paths are
    resolved against the origin. *)
Definition localhost : Host :=
  mkHost None "http://localhost:3000" (fun input base => Fulfilled (base +:+ input)).

(** The outside world of a closed example: one answer per kind of promise. *)
Definition world (microphone : Result MediaStream) (fetched : Result Response)
    (parsed : Result JsValue) (joined published : Result unit) : World :=
  fun X rq =>
    match rq in Request X return Result X with
    | getUserMedia_audio => microphone
    | fetch _ => fetched
    | response_json _ => parsed
    | room_connect _ _ => joined
    | setMicrophoneEnabled _ => published
    end.

(** ** Reading a trace *)

Definition fetch_of (en : Entry) : option string :=
  match en with
  | issued rq => match rq with fetch href => Some href | _ => None end
  | _ => None
  end.

Definition room_connect_of (en : Entry) : option (JsValue * JsValue) :=
  match en with
  | issued rq => match rq with room_connect u t => Some (u, t) | _ => None end
  | _ => None
  end.

Definition is_setMicPermission (op : SyncOp) : bool :=
  match op with
  | setMicPermission _ => true
  | _ => false
  end.

Definition is_room_request {X : Type} (rq : Request X) : bool :=
  match rq with
  | room_connect _ _ | setMicrophoneEnabled _ => true
  | _ => false
  end.

(** A property of every effect and every request of a program, on every
    path through it. *)
Fixpoint every {A : Type} (P : SyncOp -> Prop) (Q : forall X, Request X -> Prop)
    (t : Prog A) : Prop :=
  match t with
  | Ret _ | Throw _ => True
  | Do op k => P op /\ every P Q k
  | Await rq k => Q _ rq /\ forall r, every P Q (k r)
  end.

(** ** Derived notions *)

Definition entry_ok (P : SyncOp -> Prop) (Q : forall X, Request X -> Prop)
    (en : Entry) : Prop :=
  match en with
  | did op => P op
  | issued rq => Q _ rq
  | _ => True
  end.

(** What is left of the connect sequence once the body is parsed. *)
Definition join (connectionDetailsData : JsValue) : Prog unit :=
  serverUrl ← lift (get_property connectionDetailsData "serverUrl");
  participantToken ← lift (get_property connectionDetailsData "participantToken");
  await (room_connect serverUrl participantToken);;
  await (setMicrophoneEnabled true).

(** Everything [onConnectButtonClicked] does after its entry. *)
Definition connect_body host : Prog unit :=
  url ← lift (new_URL host (connection_details_endpoint host) (location_origin host));
  response ← await (fetch url);
  connectionDetailsData ← await (response_json response);
  join connectionDetailsData.

(** Every function entry on a path of the program finds the permission
    granted, when the program starts with permission [q].  After an [await]
    the permission can be anything: other handlers have run meanwhile. *)
Fixpoint calls_granted {A : Type} (q : PermissionState) (t : Prog A) : Prop :=
  match t with
  | Ret _ | Throw _ => True
  | Do op k =>
      match op with
      | setMicPermission q' => calls_granted q' k
      | called _ => q = granted /\ calls_granted q k
      | _ => calls_granted q k
      end
  | Await rq k => forall r q', calls_granted q' (k r)
  end.

(** The answer that settles a promise with a given result. *)
Definition encode {X : Type} (rq : Request X) : Result X -> Answer :=
  match rq in Request X return Result X -> Answer with
  | getUserMedia_audio => stream_answer
  | fetch _ => response_answer
  | response_json _ => json_answer
  | room_connect _ _ => unit_answer
  | setMicrophoneEnabled _ => unit_answer
  end.

(** The schedule that settles every promise of a handler as soon as it is
    parked, at position [i], with the answers of the world. *)
Fixpoint at_once {A : Type} (w : World) (i : nat) (t : Prog A) : list Event :=
  match t with
  | Ret _ | Throw _ => []
  | Do _ k => at_once w i k
  | Await rq k => settle i (encode rq (w _ rq)) :: at_once w i (k (w _ rq))
  end.

Section Derived.
Context {Room : Type} `{!RoomSDK Room}.
Implicit Types (p : Page Room).

(** The page after a run whose promise nobody holds. *)
Definition dropped (pr : Page Room * Result unit) : Page Room :=
  match pr.2 with
  | Fulfilled _ => pr.1
  | Rejected e => log (unhandled_rejection e) pr.1
  end.

(** The state after stopping the tracks of a stream, one by one. *)
Definition stopped (tracks : list Track) p : Page Room :=
  foldl (fun q t => perform (track_stop t) q) p tracks.

(** The page once the microphone request has succeeded: the tracks are
    stopped and the permission is set, in that order. *)
Definition granted_page (stream : MediaStream) p : Page Room :=
  perform (setMicPermission granted)
    (stopped (getTracks stream)
       (settling getUserMedia_audio (Fulfilled stream)
          (issue getUserMedia_audio p))).

(** Every function entry so far found the permission granted, and every
    parked handler will only enter a function with the permission granted. *)
Definition attempts_granted p : Prop :=
  Forall (fun c => permission_at_call c = granted) (calls p)
  /\ Forall (fun task => forall r q, calls_granted q (resume task r)) (pending p).

End Derived.

(** ** Concrete data *)

Module Examples.

Definition microphone : MediaStream := mkStream [0].
Definition NotAllowedError : JsError := mkError "NotAllowedError" "Permission denied".
Definition failed_to_fetch : JsError := mkError "TypeError" "Failed to fetch".
Definition not_json : JsError := mkError "SyntaxError" "Unexpected token".
Definition join_refused : JsError := mkError "ConnectionError" "could not establish signal connection".

Definition credentials : JsValue :=
  JObject [("serverUrl", JString "wss://x"); ("participantToken", JString "t");
           ("roomName", JString "r"); ("participantName", JString "p")].

(** A body without [participantToken]. *)
Definition no_token : JsValue :=
  JObject [("serverUrl", JString "wss://x"); ("roomName", JString "r");
           ("participantName", JString "p")].

Definition endpoint_href : string := "http://localhost:3000/api/connection-details".

Definition all_well : World :=
  world (Fulfilled microphone) (Fulfilled (mkResponse 200)) (Fulfilled credentials)
    (Fulfilled tt) (Fulfilled tt).

Definition no_microphone : World :=
  world (Rejected NotAllowedError) (Fulfilled (mkResponse 200)) (Fulfilled credentials)
    (Fulfilled tt) (Fulfilled tt).

Definition unreachable : World :=
  world (Fulfilled microphone) (Rejected failed_to_fetch) (Fulfilled credentials)
    (Fulfilled tt) (Fulfilled tt).

Definition server_error : World :=
  world (Fulfilled microphone) (Fulfilled (mkResponse 500)) (Rejected not_json)
    (Fulfilled tt) (Fulfilled tt).

Definition token_missing : World :=
  world (Fulfilled microphone) (Fulfilled (mkResponse 200)) (Fulfilled no_token)
    (Rejected join_refused) (Fulfilled tt).

(** Status 500, and a body that holds credentials all the same. *)
Definition error_status_with_credentials : World :=
  world (Fulfilled microphone) (Fulfilled (mkResponse 500)) (Fulfilled credentials)
    (Fulfilled tt) (Fulfilled tt).

Definition first_render : Page string := initial.

(** Mounted, permission granted, not connected: the start button shows. *)
Definition ready : Page string := mkPage granted "disconnected" true [] [] [].

(** Mounted and connected. *)
Definition live : Page string := mkPage granted "connected" true [] [] [].

(** The probe fails, the user asks and grants, the endpoint answers, the
    room is joined. *)
Definition grant_and_connect : list Event :=
  [mount;
   settle 0 (stream_answer (Rejected NotAllowedError));
   click RequestMicrophoneAccess;
   settle 0 (stream_answer (Fulfilled microphone));
   settle 0 (response_answer (Fulfilled (mkResponse 200)));
   settle 0 (json_answer (Fulfilled credentials));
   settle 0 (unit_answer (Fulfilled tt));
   settle 0 (unit_answer (Fulfilled tt))].

(** The request button is clicked twice; the first microphone request is
    granted and its connect sequence completes before the second request
    is granted. *)
Definition two_requests : list Event :=
  [mount;
   settle 0 (stream_answer (Rejected NotAllowedError));
   click RequestMicrophoneAccess;
   click RequestMicrophoneAccess;
   settle 0 (stream_answer (Fulfilled microphone));
   settle 1 (response_answer (Fulfilled (mkResponse 200)));
   settle 1 (json_answer (Fulfilled credentials));
   settle 1 (unit_answer (Fulfilled tt));
   settle 1 (unit_answer (Fulfilled tt));
   settle 0 (stream_answer (Fulfilled microphone))].

(** The probe is answered with a stream. *)
Definition probe_granted : list Event :=
  [mount; settle 0 (stream_answer (Fulfilled microphone))].

End Examples.

(** ** Further readers and derived notions *)

(** The kind of promise a request asks for. *)
Inductive Kind := media_kind | fetch_kind | json_kind | connect_kind | microphone_kind.

#[global] Instance Kind_eq_dec : EqDecision Kind.
Proof. solve_decision. Defined.

Definition kind_of {X : Type} (rq : Request X) : Kind :=
  match rq with
  | getUserMedia_audio => media_kind
  | fetch _ => fetch_kind
  | response_json _ => json_kind
  | room_connect _ _ => connect_kind
  | setMicrophoneEnabled _ => microphone_kind
  end.

Definition issued_kind (en : Entry) : option Kind :=
  match en with
  | issued rq => Some (kind_of rq)
  | _ => None
  end.

Definition alert_of (en : Entry) : option string :=
  match en with
  | did (alert msg) => Some msg
  | _ => None
  end.

Definition op_of (en : Entry) : option SyncOp :=
  match en with
  | did op => Some op
  | _ => None
  end.

(** The four promises of the connect sequence, in the order of lines 70-74. *)
Definition connect_steps : list Kind :=
  [fetch_kind; json_kind; connect_kind; microphone_kind].

(** On every path the program asks for promises of the kinds [ks], in that
    order, stopping early only by throwing: it returns only once all of
    them have been asked for. *)
Fixpoint completes {A : Type} (ks : list Kind) (t : Prog A) : Prop :=
  match t with
  | Ret _ => ks = []
  | Throw _ => True
  | Do _ k => completes ks k
  | Await rq k =>
      match ks with
      | [] => False
      | k0 :: ks' => kind_of rq = k0 /\ forall r, completes ks' (k r)
      end
  end.

(** [checkMicPermission] from its [await] on (lines 27-36). *)
Definition checkMicPermission_resumed (r : Result MediaStream) : Prog bool :=
  try_catch
    (stream ← lift r;
     stop_all (getTracks stream);;
     do (setMicPermission granted);;
     mret true)
    (fun error =>
       do (console_log "Microphone permission not granted:" error);;
       do (setMicPermission prompt);;
       mret false).

(** [requestMicPermission] from its [await] on (lines 41-49). *)
Definition requestMicPermission_resumed (host : Host) (r : Result MediaStream) : Prog unit :=
  try_catch
    (stream ← lift r;
     stop_all (getTracks stream);;
     do (setMicPermission granted);;
     onConnectButtonClicked host)
    requestMicPermission_catch.

(** The microphone requests of a trace, counted. *)
Definition media_requests (tr : list Entry) : nat :=
  length (filter (fun k => k = media_kind) (omap issued_kind tr)).

(** The device-failure notices of a trace. *)
Definition device_notices (tr : list Entry) : list string :=
  filter (fun msg => msg = device_failure_notice) (omap alert_of tr).

(** The device errors of a sequence of events that find the listener
    registered, starting mounted or not. *)
Fixpoint delivered (evs : list Event) (is_mounted : bool) : nat :=
  match evs with
  | [] => 0
  | mount :: rest => delivered rest true
  | unmount :: rest => delivered rest false
  | MediaDevicesError _ :: rest =>
      (if is_mounted then 1 else 0) + delivered rest is_mounted
  | _ :: rest => delivered rest is_mounted
  end.

(** A microphone request that was fulfilled. *)
Definition media_fulfilled {X : Type} (rq : Request X) : Result X -> bool :=
  match rq in Request X return Result X -> bool with
  | getUserMedia_audio => fun r => match r with Fulfilled _ => true | Rejected _ => false end
  | _ => fun _ => false
  end.

(** The trace holds a fulfilled microphone request. *)
Definition opened (tr : list Entry) : bool :=
  existsb (fun en => match en with settled rq r => media_fulfilled rq r | _ => false end) tr.

(** The trace holds the microphone-denied notice. *)
Definition alerted (tr : list Entry) : bool :=
  existsb (fun en => match alert_of en with
                     | Some msg => bool_decide (msg = microphone_denied_notice)
                     | None => false
                     end) tr.

(** The permission is accounted for: [granted] only with the microphone
    once opened, [denied] only with the notice shown. *)
Definition accounted (q : PermissionState) (was_opened was_alerted : bool) : Prop :=
  (q = granted -> was_opened = true) /\ (q = denied -> was_alerted = true).

(** The program leaves the permission accounted for wherever it stops: at
    its end, at a throw and at every [await]; it is resumed from an [await]
    in any accounted state, which other handlers may have made meanwhile. *)
Fixpoint accounts {A : Type} (q : PermissionState) (was_opened was_alerted : bool)
    (t : Prog A) : Prop :=
  match t with
  | Ret _ | Throw _ => accounted q was_opened was_alerted
  | Do op k =>
      match op with
      | setMicPermission q' => accounts q' was_opened was_alerted k
      | alert msg =>
          accounts q was_opened
            (was_alerted || bool_decide (msg = microphone_denied_notice)) k
      | _ => accounts q was_opened was_alerted k
      end
  | Await rq k =>
      accounted q was_opened was_alerted
      /\ forall r q' o' a', accounted q' o' a' ->
           accounts q' (o' || media_fulfilled rq r) a' (k r)
  end.

(** The rejections that nobody handled. *)
Definition rejection_of (en : Entry) : option JsError :=
  match en with
  | unhandled_rejection e => Some e
  | _ => None
  end.

(** The microphone-denied notices of a trace. *)
Definition microphone_notices (tr : list Entry) : list string :=
  filter (fun msg => msg = microphone_denied_notice) (omap alert_of tr).

(** No path of the program ends in a throw. *)
Fixpoint never_throws {A : Type} (t : Prog A) : Prop :=
  match t with
  | Ret _ => True
  | Throw _ => False
  | Do _ k => never_throws k
  | Await _ k => forall r, never_throws (k r)
  end.

(** Between two stops (its start, an [await], its end) the program shows
    the microphone-denied notice at most once, and where it has shown it, it
    stops with the permission at [denied].  [shown] tells whether the notice
    was shown since the last stop, [q] is the permission. *)
Fixpoint denies {A : Type} (shown : bool) (q : PermissionState) (t : Prog A) : Prop :=
  match t with
  | Ret _ | Throw _ => shown = true -> q = denied
  | Do op k =>
      match op with
      | setMicPermission q' => denies shown q' k
      | alert msg =>
          if bool_decide (msg = microphone_denied_notice)
          then shown = false /\ denies true q k
          else denies shown q k
      | _ => denies shown q k
      end
  | Await _ k =>
      (shown = true -> q = denied) /\ forall r q', denies false q' (k r)
  end.

Section Parked.
Context {Room : Type} `{!RoomSDK Room}.
Implicit Types (p : Page Room).

(** Every parked handler keeps to [P] and [Q] however it is resumed. *)
Definition parked_every (P : SyncOp -> Prop) (Q : forall X, Request X -> Prop) p : Prop :=
  Forall (fun task => forall r, every P Q (resume task r)) (pending p).

(** The events that ask for the microphone: a mount of the unmounted page
    and a click on the request button that is rendered. *)
Definition asks_microphone (ev : Event) p : bool :=
  match ev with
  | mount => negb (mounted p)
  | click RequestMicrophoneAccess =>
      mounted p && bool_decide (RequestMicrophoneAccess ∈ buttons p)
  | _ => false
  end.

(** The permission of the page is accounted for by its trace, and every
    parked handler keeps it so. *)
Definition permission_accounted p : Prop :=
  accounted (micPermission p) (opened (trace p)) (alerted (trace p))
  /\ Forall (fun task => forall r q o a, accounted q o a ->
                accounts q (o || media_fulfilled (awaited task) r) a (resume task r))
       (pending p).

(** No parked handler can end in a throw. *)
Definition parked_never_throw p : Prop :=
  Forall (fun task => forall r, never_throws (resume task r)) (pending p).

(** Every parked handler, resumed with any permission, shows the notice
    only together with the denial. *)
Definition parked_deny p : Prop :=
  Forall (fun task => forall r q, denies false q (resume task r)) (pending p).

End Parked.

(** The endpoint answers with the body [null]. *)
Definition null_body : World :=
  world (Fulfilled Examples.microphone) (Fulfilled (mkResponse 200)) (Fulfilled JNull)
    (Fulfilled tt) (Fulfilled tt).

(** The request button is clicked while the probe of the mount is still
    pending; the microphone is granted to the request, its fetch fails, and
    the probe is refused last. *)
Definition late_probe : list Event :=
  [mount;
   click RequestMicrophoneAccess;
   settle 1 (stream_answer (Fulfilled Examples.microphone));
   settle 1 (response_answer (Rejected Examples.failed_to_fetch));
   settle 0 (stream_answer (Rejected Examples.NotAllowedError))].

(** * Properties *)

(** ** Running to completion *)

Section Run.
Context {Room : Type} `{!RoomSDK Room}.
Implicit Types (p : Page Room) (w : World) (host : Host).

Lemma run_bind {A B : Type} w (t : Prog A) (f : A -> Prog B) p :
  run w (t ≫= f) p =
    match run w t p with
    | (p', Fulfilled a) => run w (f a) p'
    | (p', Rejected e) => (p', Rejected e)
    end.
Proof.
  unfold mbind, Prog_bind.
  revert p. induction t as [a|e|op k IH|X rq k IH]; intros p; cbn; auto.
Qed.

Lemma run_try_catch {A : Type} w (t : Prog A) (h : JsError -> Prog A) p :
  run w (try_catch t h) p =
    match run w t p with
    | (p', Fulfilled a) => (p', Fulfilled a)
    | (p', Rejected e) => run w (h e) p'
    end.
Proof.
  revert p. induction t as [a|e|op k IH|X rq k IH]; intros p; cbn; auto.
Qed.

(** *** What a run can and cannot change *)

Lemma trace_perform op p : trace (perform op p) = trace p ++ [did op].
Proof. by destruct p, op. Qed.

Lemma trace_await {X : Type} (rq : Request X) r p :
  trace (settling rq r (issue rq p)) = trace p ++ [issued rq; settled rq r].
Proof. destruct p, rq; cbn; by rewrite <- app_assoc. Qed.

Lemma micPermission_set q p : micPermission (perform (setMicPermission q) p) = q.
Proof. by destruct p. Qed.

Lemma micPermission_perform op p :
  is_setMicPermission op = false ->
  micPermission (perform op p) = micPermission p.
Proof. by destruct p, op. Qed.

Lemma micPermission_await {X : Type} (rq : Request X) r p :
  micPermission (settling rq r (issue rq p)) = micPermission p.
Proof. by destruct p, rq. Qed.

Lemma room_perform op p : room (perform op p) = room p.
Proof. by destruct p, op. Qed.

Lemma room_await {X : Type} (rq : Request X) r p :
  is_room_request rq = false ->
  room (settling rq r (issue rq p)) = room p.
Proof. by destruct p, rq. Qed.

Lemma calls_perform op p :
  (forall f, op <> called f) -> calls (perform op p) = calls p.
Proof. destruct p, op; intros Hop; try done. by destruct (Hop fn0). Qed.

Lemma calls_await {X : Type} (rq : Request X) r p :
  calls (settling rq r (issue rq p)) = calls p.
Proof. by destruct p, rq. Qed.

Lemma run_lift {A : Type} w (r : Result A) p : run w (lift r) p = (p, r).
Proof. by destruct r. Qed.

Lemma run_await {X : Type} w (rq : Request X) p :
  run w (await rq) p = (settling rq (w _ rq) (issue rq p), w _ rq).
Proof. unfold await. cbn. apply run_lift. Qed.

Lemma run_stop_all w tracks p :
  run w (stop_all tracks) p = (stopped tracks p, Fulfilled tt).
Proof.
  revert p. induction tracks as [|t tracks IH]; intros p; cbn; auto.
Qed.

Lemma stopped_frame tracks p :
  micPermission (stopped tracks p) = micPermission p
  /\ room (stopped tracks p) = room p
  /\ pending (stopped tracks p) = pending p
  /\ calls (stopped tracks p) = calls p
  /\ mounted (stopped tracks p) = mounted p
  /\ trace (stopped tracks p) = trace p ++ map (fun t => did (track_stop t)) tracks.
Proof.
  revert p. induction tracks as [|t tracks IH]; intros p.
  - cbn. by rewrite app_nil_r.
  - change (stopped (t :: tracks) p) with (stopped tracks (perform (track_stop t) p)).
    destruct (IH (perform (track_stop t) p)) as (-> & -> & -> & -> & -> & ->).
    destruct p; cbn. by rewrite <- app_assoc.
Qed.

(** *** The passive probe *)

(** C4.  [checkMicPermission] never rejects.  When the microphone can be
    opened it stops every track of the stream at once, sets the permission
    to [granted] and answers [true]; on any failure it logs, sets the
    permission to [prompt] and answers [false].  It never sets [denied],
    shows no alert and leaves the room alone. *)
Theorem checkMicPermission_probe w p :
  (forall stream, w _ getUserMedia_audio = Fulfilled stream ->
     exists p', run w checkMicPermission p = (p', Fulfilled true)
       /\ micPermission p' = granted
       /\ trace p' = trace p
            ++ [issued getUserMedia_audio;
                settled getUserMedia_audio (Fulfilled stream)]
            ++ map (fun t => did (track_stop t)) (getTracks stream)
            ++ [did (setMicPermission granted)])
  /\ (forall e, w _ getUserMedia_audio = Rejected e ->
     exists p', run w checkMicPermission p = (p', Fulfilled false)
       /\ micPermission p' = prompt
       /\ trace p' = trace p
            ++ [issued getUserMedia_audio;
                settled getUserMedia_audio (Rejected e);
                did (console_log "Microphone permission not granted:" e);
                did (setMicPermission prompt)])
  /\ (exists b, (run w checkMicPermission p).2 = Fulfilled b)
  /\ micPermission (run w checkMicPermission p).1 <> denied
  /\ room (run w checkMicPermission p).1 = room p.
Proof.
  assert (Hok : forall stream, w _ getUserMedia_audio = Fulfilled stream ->
    run w checkMicPermission p =
      (perform (setMicPermission granted)
         (stopped (getTracks stream)
            (settling getUserMedia_audio (Fulfilled stream)
               (issue getUserMedia_audio p))), Fulfilled true)).
  { intros stream Hw. unfold checkMicPermission. rewrite run_try_catch.
    cbn. rewrite Hw. cbn. rewrite run_bind, run_stop_all. done. }
  assert (Hko : forall e, w _ getUserMedia_audio = Rejected e ->
    run w checkMicPermission p =
      (perform (setMicPermission prompt)
         (perform (console_log "Microphone permission not granted:" e)
            (settling getUserMedia_audio (Rejected e)
               (issue getUserMedia_audio p))), Fulfilled false)).
  { intros e Hw. unfold checkMicPermission. rewrite run_try_catch.
    cbn. rewrite Hw. done. }
  split; [|split; [|destruct (w _ getUserMedia_audio) as [stream|e] eqn:Hw]].
  - intros stream Hw. eexists. split; [by apply Hok|].
    split; [apply micPermission_set|].
    rewrite trace_perform.
    destruct (stopped_frame (getTracks stream)
      (settling getUserMedia_audio (Fulfilled stream) (issue getUserMedia_audio p)))
      as (_ & _ & _ & _ & _ & ->).
    rewrite trace_await. by rewrite <- !app_assoc.
  - intros e Hw. eexists. split; [by apply Hko|].
    split; [apply micPermission_set|].
    rewrite !trace_perform, trace_await. by rewrite <- !app_assoc.
  - rewrite (Hok stream eq_refl). cbn [fst snd]. split; [by eexists|].
    rewrite micPermission_set, room_perform. split; [done|].
    destruct (stopped_frame (getTracks stream)
      (settling getUserMedia_audio (Fulfilled stream) (issue getUserMedia_audio p)))
      as (_ & -> & _).
    by apply room_await.
  - rewrite (Hko e eq_refl). cbn [fst snd]. split; [by eexists|].
    rewrite micPermission_set, !room_perform. split; [done|].
    by apply room_await.
Qed.

Lemma run_trace {A : Type} P Q w (t : Prog A) p :
  every P Q t ->
  exists new, trace (run w t p).1 = trace p ++ new /\ Forall (entry_ok P Q) new.
Proof.
  revert p. induction t as [a|e|op k IH|X rq k IH]; intros p Ht; cbn.
  - exists []. by rewrite app_nil_r.
  - exists []. by rewrite app_nil_r.
  - destruct Ht as [Hop Hk].
    destruct (IH (perform op p) Hk) as (new & -> & Hnew).
    exists (did op :: new). rewrite trace_perform, <- app_assoc.
    split; [done|]. by constructor.
  - destruct Ht as [Hrq Hk].
    destruct (IH (w _ rq) (settling rq (w _ rq) (issue rq p)) (Hk _))
      as (new & -> & Hnew).
    exists (issued rq :: settled rq (w _ rq) :: new).
    rewrite trace_await, <- app_assoc.
    split; [done|]. by repeat constructor.
Qed.

Lemma run_micPermission {A : Type} w (t : Prog A) p :
  every (fun op => is_setMicPermission op = false) (fun _ _ => True) t ->
  micPermission (run w t p).1 = micPermission p.
Proof.
  revert p. induction t as [a|e|op k IH|X rq k IH]; intros p Ht; cbn; auto.
  - destruct Ht as [Hop Hk]. by rewrite IH, micPermission_perform.
  - destruct Ht as [_ Hk]. by rewrite IH, micPermission_await.
Qed.

Lemma run_calls {A : Type} w (t : Prog A) p :
  every (fun op => forall f, op <> called f) (fun _ _ => True) t ->
  calls (run w t p).1 = calls p.
Proof.
  revert p. induction t as [a|e|op k IH|X rq k IH]; intros p Ht; cbn; auto.
  - destruct Ht as [Hop Hk]. by rewrite IH, calls_perform.
  - destruct Ht as [_ Hk]. by rewrite IH, calls_await.
Qed.

Lemma every_bind_lift {A B : Type} P Q (r : Result A) (f : A -> Prog B) :
  (forall a, r = Fulfilled a -> every P Q (f a)) -> every P Q (bind (lift r) f).
Proof. destruct r; cbn; auto. Qed.

Lemma every_try_catch {A : Type} P Q (t : Prog A) (h : JsError -> Prog A) :
  every P Q t -> (forall e, every P Q (h e)) -> every P Q (try_catch t h).
Proof.
  intros Ht Hh. induction t as [a|e|op k IH|X rq k IH]; cbn in *; auto.
  - destruct Ht. auto.
  - destruct Ht. auto.
Qed.

Lemma omap_entry_ok {B : Type} (f : Entry -> option B) P Q (new : list Entry) :
  Forall (entry_ok P Q) new ->
  (forall en, entry_ok P Q en -> f en = None) ->
  omap f new = [].
Proof.
  intros Hnew Hf. induction Hnew as [|en new Hen _ IH]; [done|].
  cbn. by rewrite (Hf en Hen).
Qed.

Lemma lift_every {A : Type} P Q (r : Result A) : every P Q (lift r).
Proof. by destruct r. Qed.

(** *** The connect sequence *)

Lemma onConnectButtonClicked_unfold host :
  onConnectButtonClicked host = Do (called "onConnectButtonClicked") (connect_body host).
Proof. reflexivity. Qed.

(** The connect sequence has no synchronous effect after its entry, and
    asks for nothing but these four kinds of promise. *)
Lemma join_every P (Q : forall X, Request X -> Prop) data :
  (forall u t, Q _ (room_connect u t)) ->
  Q _ (setMicrophoneEnabled true) ->
  every P Q (join data).
Proof.
  intros Hconnect Hmic. unfold join, mbind, Prog_bind, await.
  apply every_bind_lift; intros u _.
  apply every_bind_lift; intros t _. cbn. split; [done|]. intros r1.
  apply every_bind_lift; intros _ _. cbn. split; [done|]. intros r2.
  apply lift_every.
Qed.

Lemma connect_body_every host P (Q : forall X, Request X -> Prop) :
  (forall href, Q _ (fetch href)) ->
  (forall response, Q _ (response_json response)) ->
  (forall u t, Q _ (room_connect u t)) ->
  Q _ (setMicrophoneEnabled true) ->
  every P Q (connect_body host).
Proof.
  intros Hfetch Hjson Hconnect Hmic. unfold connect_body, mbind, Prog_bind, await.
  apply every_bind_lift; intros href _. cbn. split; [done|]. intros r1.
  apply every_bind_lift; intros response _. cbn. split; [done|]. intros r2.
  apply every_bind_lift; intros data _. by apply join_every.
Qed.

Lemma connect_every host P (Q : forall X, Request X -> Prop) :
  P (called "onConnectButtonClicked") ->
  (forall href, Q _ (fetch href)) ->
  (forall response, Q _ (response_json response)) ->
  (forall u t, Q _ (room_connect u t)) ->
  Q _ (setMicrophoneEnabled true) ->
  every P Q (onConnectButtonClicked host).
Proof.
  intros. rewrite onConnectButtonClicked_unfold. split; [done|].
  by apply connect_body_every.
Qed.

Lemma connect_micPermission host w p :
  micPermission (run w (onConnectButtonClicked host) p).1 = micPermission p.
Proof. apply run_micPermission. by apply connect_every. Qed.

(** C6.  When [onConnectButtonClicked] is run on its own and fails,
    whatever step failed, the permission state is what it was, and no
    [setMicPermission] is among the effects of the run. *)
Theorem connect_failure_keeps_permission host w p e :
  (run w (onConnectButtonClicked host) p).2 = Rejected e ->
  micPermission (run w (onConnectButtonClicked host) p).1 = micPermission p
  /\ exists new,
       trace (run w (onConnectButtonClicked host) p).1 = trace p ++ new
       /\ Forall (fun en => forall q, en <> did (setMicPermission q)) new.
Proof.
  intros _. split; [apply connect_micPermission|].
  destruct (run_trace (fun op => is_setMicPermission op = false) (fun _ _ => True)
              w (onConnectButtonClicked host) p) as (new & Hnew & Hall).
  { by apply connect_every. }
  exists new. split; [done|].
  eapply Forall_impl; [exact Hall|].
  intros en Hen q ->. cbn in Hen. done.
Qed.

(** The run of the connect sequence, up to the first promise. *)
Lemma connect_run_fetch host w p href :
  new_URL host (connection_details_endpoint host) (location_origin host) = Fulfilled href ->
  run w (onConnectButtonClicked host) p =
    run w (response ← lift (w _ (fetch href));
           connectionDetailsData ← await (response_json response);
           join connectionDetailsData)
      (settling (fetch href) (w _ (fetch href))
         (issue (fetch href) (perform (called "onConnectButtonClicked") p))).
Proof.
  intros Hurl. rewrite onConnectButtonClicked_unfold.
  unfold connect_body, mbind, Prog_bind. by rewrite Hurl.
Qed.

Lemma connect_run_json host w p href response :
  new_URL host (connection_details_endpoint host) (location_origin host) = Fulfilled href ->
  w _ (fetch href) = Fulfilled response ->
  run w (onConnectButtonClicked host) p =
    run w (connectionDetailsData ← lift (w _ (response_json response));
           join connectionDetailsData)
      (settling (response_json response) (w _ (response_json response))
         (issue (response_json response)
            (settling (fetch href) (Fulfilled response)
               (issue (fetch href) (perform (called "onConnectButtonClicked") p))))).
Proof.
  intros Hurl Hfetch. rewrite (connect_run_fetch _ _ _ _ Hurl), Hfetch. done.
Qed.

Lemma after_fetch_every P (Q : forall X, Request X -> Prop) (r : Result Response) :
  (forall response, Q _ (response_json response)) ->
  (forall u t, Q _ (room_connect u t)) ->
  Q _ (setMicrophoneEnabled true) ->
  every P Q (response ← lift r;
             connectionDetailsData ← await (response_json response);
             join connectionDetailsData).
Proof.
  intros Hjson Hconnect Hmic. unfold mbind, Prog_bind, await.
  apply every_bind_lift; intros response _. cbn. split; [done|]. intros r2.
  apply every_bind_lift; intros data _. by apply join_every.
Qed.

Lemma connect_fetches host w p href :
  new_URL host (connection_details_endpoint host) (location_origin host) = Fulfilled href ->
  omap fetch_of (trace (run w (onConnectButtonClicked host) p).1)
  = omap fetch_of (trace p) ++ [href].
Proof.
  intros Hurl. rewrite (connect_run_fetch _ _ _ _ Hurl).
  match goal with
  | |- context [run w ?t ?q] =>
      destruct (run_trace (fun _ => True) (fun _ rq => fetch_of (issued rq) = None) w t q)
        as (new & -> & Hnew)
  end.
  { by apply after_fetch_every. }
  rewrite trace_await, trace_perform, !omap_app.
  rewrite (omap_entry_ok _ _ _ _ Hnew).
  - cbn. by rewrite !app_nil_r.
  - by intros [op|X rq|X rq r|e].
Qed.

(** C7.  The credential endpoint is read from the one environment
    variable: when it is absent the request goes to
    ["/api/connection-details"] resolved against the origin, when it is set
    to the variable's value; and that is the only request for credentials
    the connect sequence makes. *)
Theorem credential_endpoint_resolution host w p href :
  (NEXT_PUBLIC_CONN_DETAILS_ENDPOINT host = None ->
   new_URL host "/api/connection-details" (location_origin host) = Fulfilled href ->
   omap fetch_of (trace (run w (onConnectButtonClicked host) p).1)
   = omap fetch_of (trace p) ++ [href])
  /\ (forall path, NEXT_PUBLIC_CONN_DETAILS_ENDPOINT host = Some path ->
      new_URL host path (location_origin host) = Fulfilled href ->
      omap fetch_of (trace (run w (onConnectButtonClicked host) p).1)
      = omap fetch_of (trace p) ++ [href]).
Proof.
  split.
  - intros Henv Hurl. apply connect_fetches.
    unfold connection_details_endpoint. by rewrite Henv.
  - intros path Henv Hurl. apply connect_fetches.
    unfold connection_details_endpoint. by rewrite Henv.
Qed.

Lemma run_join_object w props p :
  run w (join (JObject props)) p =
    let serverUrl := own_property props "serverUrl" in
    let participantToken := own_property props "participantToken" in
    let joined :=
      settling (room_connect serverUrl participantToken)
        (w _ (room_connect serverUrl participantToken))
        (issue (room_connect serverUrl participantToken) p) in
    match w _ (room_connect serverUrl participantToken) with
    | Fulfilled _ =>
        (settling (setMicrophoneEnabled true) (w _ (setMicrophoneEnabled true))
           (issue (setMicrophoneEnabled true) joined),
         w _ (setMicrophoneEnabled true))
    | Rejected e => (joined, Rejected e)
    end.
Proof.
  change (join (JObject props)) with
    (await (room_connect (own_property props "serverUrl")
              (own_property props "participantToken"));;
     await (setMicrophoneEnabled true)).
  rewrite run_bind, run_await. cbv zeta.
  destruct (w _ (room_connect _ _)); [apply run_await|done].
Qed.

(** C1, as the code has it.  When the endpoint cannot be reached ([fetch]
    rejects) or its body is not JSON ([response.json()] rejects), the
    connect sequence rejects with that very error, [room.connect] is not
    called, and the room and the permission state are what they were.
    The status of the response is not read; a body that parses to an object
    is passed on as it is: [room.connect] is called with its [serverUrl]
    and [participantToken], [undefined] when missing, and the sequence
    settles as [room.connect] and [setMicrophoneEnabled] do. *)
Theorem connect_credential_failure host w p href :
  new_URL host (connection_details_endpoint host) (location_origin host) = Fulfilled href ->
  (forall e, w _ (fetch href) = Rejected e ->
     exists p', run w (onConnectButtonClicked host) p = (p', Rejected e)
       /\ room p' = room p
       /\ micPermission p' = micPermission p
       /\ trace p' = trace p
            ++ [did (called "onConnectButtonClicked");
                issued (fetch href); settled (fetch href) (Rejected e)])
  /\ (forall response e,
        w _ (fetch href) = Fulfilled response ->
        w _ (response_json response) = Rejected e ->
        exists p', run w (onConnectButtonClicked host) p = (p', Rejected e)
          /\ room p' = room p
          /\ micPermission p' = micPermission p
          /\ trace p' = trace p
               ++ [did (called "onConnectButtonClicked");
                   issued (fetch href); settled (fetch href) (Fulfilled response);
                   issued (response_json response);
                   settled (response_json response) (Rejected e)])
  /\ (forall response props,
        w _ (fetch href) = Fulfilled response ->
        w _ (response_json response) = Fulfilled (JObject props) ->
        let serverUrl := own_property props "serverUrl" in
        let participantToken := own_property props "participantToken" in
        omap room_connect_of (trace (run w (onConnectButtonClicked host) p).1)
        = omap room_connect_of (trace p) ++ [(serverUrl, participantToken)]
        /\ (run w (onConnectButtonClicked host) p).2
           = match w _ (room_connect serverUrl participantToken) with
             | Fulfilled _ => w _ (setMicrophoneEnabled true)
             | Rejected e => Rejected e
             end).
Proof.
  intros Hurl. split; [|split].
  - intros e Hfetch. rewrite (connect_run_fetch _ _ _ _ Hurl), Hfetch.
    eexists. split; [reflexivity|].
    rewrite room_await, room_perform by done.
    rewrite micPermission_await, micPermission_perform by done.
    rewrite trace_await, trace_perform. by rewrite <- !app_assoc.
  - intros response e Hfetch Hjson.
    rewrite (connect_run_json _ _ _ _ _ Hurl Hfetch), Hjson.
    eexists. split; [reflexivity|].
    rewrite !room_await, room_perform by done.
    rewrite !micPermission_await, micPermission_perform by done.
    rewrite !trace_await, trace_perform. by rewrite <- !app_assoc.
  - intros response props Hfetch Hjson serverUrl participantToken.
    rewrite (connect_run_json _ _ _ _ _ Hurl Hfetch), Hjson.
    subst serverUrl participantToken.
    rewrite run_bind, run_lift, run_join_object. cbv zeta.
    destruct (w _ (room_connect _ _)) as [[]|e];
      cbn [fst snd]; (split; [|done]);
      rewrite !trace_await, trace_perform, !omap_app; cbn;
      by rewrite !app_nil_r.
Qed.

(** *** The explicit request *)

Lemma run_do w op p : run w (do op) p = (perform op p, Fulfilled tt).
Proof. reflexivity. Qed.

Lemma granted_page_frame stream p :
  micPermission (granted_page stream p) = granted
  /\ room (granted_page stream p) = room p
  /\ calls (granted_page stream p) = calls p
  /\ trace (granted_page stream p) = trace p
       ++ [issued getUserMedia_audio; settled getUserMedia_audio (Fulfilled stream)]
       ++ map (fun t => did (track_stop t)) (getTracks stream)
       ++ [did (setMicPermission granted)].
Proof.
  unfold granted_page.
  rewrite micPermission_set, room_perform, calls_perform, trace_perform by done.
  destruct (stopped_frame (getTracks stream)
    (settling getUserMedia_audio (Fulfilled stream) (issue getUserMedia_audio p)))
    as (_ & -> & _ & -> & _ & ->).
  rewrite room_await, calls_await, trace_await by done.
  by rewrite <- !app_assoc.
Qed.

Lemma requestMicPermission_run_granted host w p stream :
  w _ getUserMedia_audio = Fulfilled stream ->
  run w (requestMicPermission host) p
  = run w (try_catch (onConnectButtonClicked host) requestMicPermission_catch)
      (granted_page stream p).
Proof.
  intros Hw. unfold requestMicPermission. rewrite !run_try_catch.
  rewrite run_bind, run_await, Hw. cbv beta iota.
  rewrite run_bind, run_stop_all. cbv beta iota.
  by rewrite run_bind, run_do.
Qed.

Lemma run_requestMicPermission_catch w e p :
  run w (requestMicPermission_catch e) p
  = (perform (alert microphone_denied_notice)
       (perform (setMicPermission denied)
          (perform (console_error "Error acquiring microphone permissions:" e) p)),
     Fulfilled tt).
Proof. reflexivity. Qed.

Lemma requestMicPermission_run_denied host w p e :
  w _ getUserMedia_audio = Rejected e ->
  run w (requestMicPermission host) p
  = run w (requestMicPermission_catch e)
      (settling getUserMedia_audio (Rejected e) (issue getUserMedia_audio p)).
Proof.
  intros Hw. unfold requestMicPermission. rewrite run_try_catch.
  by rewrite run_bind, run_await, Hw.
Qed.

Lemma catch_every e :
  every (fun op => forall f, op <> called f) (fun _ _ => True)
    (requestMicPermission_catch e).
Proof. by repeat split. Qed.

Lemma calls_called f p :
  calls (perform (called f) p)
  = calls p ++ [mkCall f (micPermission p) (agentState (room p))].
Proof. by destruct p. Qed.

Lemma guarded_connect_calls host w p :
  calls (run w (try_catch (onConnectButtonClicked host) requestMicPermission_catch) p).1
  = calls p ++ [mkCall "onConnectButtonClicked" (micPermission p) (agentState (room p))].
Proof.
  rewrite onConnectButtonClicked_unfold.
  change (run w (try_catch (Do ?op ?k) ?h) p)
    with (run w (try_catch k h) (perform op p)).
  rewrite run_calls, calls_called; [done|].
  apply every_try_catch; [by apply connect_body_every|apply catch_every].
Qed.

(** C3.  When the microphone request succeeds, [requestMicPermission]
    stops the tracks, sets the permission to [granted] and goes on at once
    with the connect sequence, entered once and with the permission
    granted.  When the request fails it logs, sets the permission to
    [denied], shows the notice once and ends: it asks for nothing again and
    does not enter the connect sequence. *)
Theorem requestMicPermission_grant_or_denial host w p :
  (forall stream, w _ getUserMedia_audio = Fulfilled stream ->
     micPermission (granted_page stream p) = granted
     /\ trace (granted_page stream p) = trace p
          ++ [issued getUserMedia_audio; settled getUserMedia_audio (Fulfilled stream)]
          ++ map (fun t => did (track_stop t)) (getTracks stream)
          ++ [did (setMicPermission granted)]
     /\ run w (requestMicPermission host) p
        = run w (try_catch (onConnectButtonClicked host) requestMicPermission_catch)
            (granted_page stream p)
     /\ calls (run w (requestMicPermission host) p).1
        = calls p ++ [mkCall "onConnectButtonClicked" granted (agentState (room p))])
  /\ (forall e, w _ getUserMedia_audio = Rejected e ->
     exists p', run w (requestMicPermission host) p = (p', Fulfilled tt)
       /\ micPermission p' = denied
       /\ room p' = room p
       /\ calls p' = calls p
       /\ trace p' = trace p
            ++ [issued getUserMedia_audio;
                settled getUserMedia_audio (Rejected e);
                did (console_error "Error acquiring microphone permissions:" e);
                did (setMicPermission denied);
                did (alert microphone_denied_notice)]).
Proof.
  split.
  - intros stream Hw.
    destruct (granted_page_frame stream p) as (Hperm & Hroom & Hcalls & Htrace).
    repeat split; [done|done|by apply requestMicPermission_run_granted|].
    rewrite (requestMicPermission_run_granted _ _ _ _ Hw), guarded_connect_calls.
    by rewrite Hperm, Hroom, Hcalls.
  - intros e Hw. rewrite (requestMicPermission_run_denied _ _ _ _ Hw).
    rewrite run_requestMicPermission_catch. eexists. split; [done|].
    rewrite room_perform, micPermission_perform, micPermission_set by done.
    rewrite !room_perform, room_await by done.
    rewrite !calls_perform, calls_await by done.
    rewrite !trace_perform, trace_await. by rewrite <- !app_assoc.
Qed.

(** C5.  When the microphone request succeeds and the connect sequence
    that follows it fails, at any of its steps, the same [catch] block
    runs: the error is logged as a permission error, the permission is set
    to [denied] and the microphone-denied notice is shown, although the
    permission had just been set to [granted]; the promise is fulfilled. *)
Theorem connect_failure_after_grant_reads_as_denial host w p stream e :
  w _ getUserMedia_audio = Fulfilled stream ->
  (run w (onConnectButtonClicked host) (granted_page stream p)).2 = Rejected e ->
  exists p', run w (requestMicPermission host) p = (p', Fulfilled tt)
    /\ micPermission p' = denied
    /\ trace p' = trace (run w (onConnectButtonClicked host) (granted_page stream p)).1
         ++ [did (console_error "Error acquiring microphone permissions:" e);
             did (setMicPermission denied);
             did (alert microphone_denied_notice)]
    /\ did (setMicPermission granted) ∈ trace p'.
Proof.
  intros Hw Hfail.
  rewrite (requestMicPermission_run_granted _ _ _ _ Hw), run_try_catch.
  destruct (run_trace (fun _ => True) (fun _ _ => True) w
              (onConnectButtonClicked host) (granted_page stream p))
    as (new & Hnew & _).
  { by apply connect_every. }
  destruct (run w (onConnectButtonClicked host) (granted_page stream p))
    as [q [[]|e']]; cbn [fst snd] in *; [done|].
  injection Hfail as ->. rewrite run_requestMicPermission_catch.
  eexists. split; [done|].
  rewrite micPermission_perform, micPermission_set by done.
  rewrite !trace_perform, <- !app_assoc. split; [done|]. split; [done|].
  rewrite Hnew. destruct (granted_page_frame stream p) as (_ & _ & _ & ->).
  rewrite !elem_of_app, !elem_of_cons. tauto.
Qed.

End Run.

(** ** The event loop *)

Section Loop.
Context {Room : Type} `{!RoomSDK Room} (host : Host).
Implicit Types (p : Page Room) (ev : Event) (b : Button).

(** *** Programs *)

Lemma every_bind {A B : Type} P Q (t : Prog A) (f : A -> Prog B) :
  every P Q t -> (forall a, every P Q (f a)) -> every P Q (t ≫= f).
Proof.
  unfold mbind, Prog_bind. intros Ht Hf.
  induction t as [a|e|op k IH|X rq k IH]; cbn in *; auto.
  - destruct Ht. auto.
  - destruct Ht. auto.
Qed.

Lemma stop_all_every P Q tracks :
  (forall t, P (track_stop t)) -> every P Q (stop_all tracks).
Proof. intros HP. induction tracks; cbn; auto. Qed.

Lemma every_calls_granted {A : Type} (t : Prog A) q :
  every (fun op => forall f, op <> called f) (fun _ _ => True) t ->
  calls_granted q t.
Proof.
  revert q. induction t as [a|e|op k IH|X rq k IH]; intros q Ht; cbn in *; auto.
  - destruct Ht as [Hop Hk]. destruct op; auto. by destruct (Hop fn0).
  - destruct Ht as [_ Hk]. auto.
Qed.

Lemma checkMicPermission_no_call :
  every (fun op => forall f, op <> called f) (fun _ _ => True) (void checkMicPermission).
Proof.
  apply every_bind; [|done]. apply every_try_catch.
  - apply every_bind; [by repeat split; try apply lift_every|]. intros stream.
    apply every_bind; [by apply stop_all_every|]. intros _.
    by repeat split.
  - intros e. by repeat split.
Qed.

Lemma calls_granted_stop_all {A : Type} q tracks (k : Prog A) h :
  calls_granted q (try_catch k h) ->
  calls_granted q (try_catch (stop_all tracks;; k) h).
Proof. intros Hk. induction tracks; cbn; auto. Qed.

Lemma onConnectButtonClicked_calls_granted :
  calls_granted granted (onConnectButtonClicked host).
Proof.
  rewrite onConnectButtonClicked_unfold. split; [done|].
  apply every_calls_granted. by apply connect_body_every.
Qed.

Lemma requestMicPermission_calls_granted q :
  calls_granted q (requestMicPermission host).
Proof.
  intros [stream|e] q'.
  - change (calls_granted q'
      (try_catch
         (stop_all (getTracks stream);;
          (do (setMicPermission granted);; onConnectButtonClicked host))
         requestMicPermission_catch)).
    apply calls_granted_stop_all. split; [done|].
    apply every_calls_granted, every_try_catch;
      [by apply connect_body_every|apply catch_every].
  - apply every_calls_granted, catch_every.
Qed.

(** *** What the event loop preserves *)

Lemma attempts_granted_log en p : attempts_granted p -> attempts_granted (log en p).
Proof. by destruct p. Qed.

Lemma attempts_granted_with_room f p :
  attempts_granted p -> attempts_granted (with_room f p).
Proof. by destruct p. Qed.

Lemma attempts_granted_with_mounted m p :
  attempts_granted p -> attempts_granted (with_mounted m p).
Proof. by destruct p. Qed.

Lemma attempts_granted_issue {X : Type} (rq : Request X) p :
  attempts_granted p -> attempts_granted (issue rq p).
Proof.
  intros Hp. apply attempts_granted_log.
  destruct rq; auto using attempts_granted_with_room.
Qed.

Lemma attempts_granted_settling {X : Type} (rq : Request X) r p :
  attempts_granted p -> attempts_granted (settling rq r p).
Proof.
  intros Hp. apply attempts_granted_log.
  destruct rq; auto using attempts_granted_with_room.
Qed.

Lemma attempts_granted_delete i p :
  attempts_granted p -> attempts_granted (with_pending (delete i) p).
Proof.
  destruct p as [perm rm mnt pend tr cl]. intros [Hcalls Hpend].
  split; [done|]. by apply Forall_delete.
Qed.

Lemma attempts_granted_perform op p :
  calls_granted (micPermission p) (Do op (Ret tt)) ->
  attempts_granted p -> attempts_granted (perform op p).
Proof.
  destruct p as [perm rm mnt pend tr cl]. intros Hop [Hcalls Hpend].
  destruct op; try done.
  destruct Hop as [Hperm _]. cbn in Hperm.
  split; [|done]. cbn. apply Forall_app. split; [done|].
  by repeat constructor.
Qed.

Lemma calls_granted_perform {A : Type} op (k : Prog A) p :
  calls_granted (micPermission p) (Do op k) ->
  calls_granted (micPermission p) (Do op (Ret tt))
  /\ calls_granted (micPermission (perform op p)) k.
Proof. destruct p, op; cbn; tauto. Qed.

Lemma exec_attempts_granted (t : Prog unit) p :
  calls_granted (micPermission p) t ->
  attempts_granted p -> attempts_granted (exec t p).
Proof.
  revert p. induction t as [a|e|op k IH|X rq k IH]; intros p Ht Hp.
  - done.
  - by apply attempts_granted_log.
  - destruct (calls_granted_perform _ _ _ Ht) as [Hop Hk].
    apply IH; [done|]. by apply attempts_granted_perform.
  - cbn. apply (attempts_granted_issue rq) in Hp.
    destruct (issue rq p) as [perm rm mnt pend tr cl], Hp as [Hcalls Hpend].
    split; [done|]. cbn. apply Forall_app. split; [done|].
    repeat constructor. exact Ht.
Qed.

Lemma onDeviceFailure_no_call e :
  every (fun op => forall f, op <> called f) (fun _ _ => True) (onDeviceFailure e).
Proof. by repeat split. Qed.

Lemma buttons_StartConversation p :
  StartConversation ∈ buttons p ->
  micPermission p = granted /\ agentState (room p) = "disconnected".
Proof.
  unfold buttons, SimpleVoiceAssistant, ControlBar.
  repeat case_bool_decide; cbn [andb app];
    rewrite ?elem_of_cons, ?elem_of_nil; intuition congruence.
Qed.

Lemma buttons_RequestMicrophoneAccess p :
  RequestMicrophoneAccess ∈ buttons p ->
  micPermission p <> granted /\ agentState (room p) = "disconnected".
Proof.
  unfold buttons, SimpleVoiceAssistant, ControlBar.
  repeat case_bool_decide; cbn [andb app];
    rewrite ?elem_of_cons, ?elem_of_nil; intuition congruence.
Qed.

Lemma buttons_Disconnect p :
  Disconnect ∈ buttons p <->
  agentState (room p) <> "disconnected" /\ agentState (room p) <> "connecting".
Proof.
  unfold buttons, SimpleVoiceAssistant, ControlBar.
  repeat case_bool_decide; cbn [andb app];
    rewrite ?elem_of_cons, ?elem_of_nil; intuition congruence.
Qed.

Lemma step_attempts_granted ev p :
  attempts_granted p -> attempts_granted (step host ev p).
Proof.
  intros Hp. destruct ev as [| |b|i a|e|n]; unfold step.
  - destruct (mounted p); [done|]. apply attempts_granted_with_mounted.
    apply exec_attempts_granted; [|done].
    apply every_calls_granted, checkMicPermission_no_call.
  - by apply attempts_granted_with_mounted.
  - destruct (mounted p); [|done]. case_bool_decide as Hb; [|done].
    destruct b; unfold andb, onClick.
    + apply exec_attempts_granted; [|done]. apply requestMicPermission_calls_granted.
    + apply exec_attempts_granted; [|done].
      destruct (buttons_StartConversation p Hb) as [-> _].
      apply onConnectButtonClicked_calls_granted.
    + by apply attempts_granted_with_room.
  - destruct (pending p !! i) as [task|] eqn:Hi; [|done].
    destruct (decode (awaited task) a) as [r|]; [|done].
    apply exec_attempts_granted.
    + destruct Hp as [_ Hpend].
      eapply Forall_lookup_1 in Hpend; [|exact Hi]. apply Hpend.
    + by apply attempts_granted_settling, attempts_granted_delete.
  - destruct (mounted p); [|done].
    apply exec_attempts_granted; [|done].
    apply every_calls_granted, onDeviceFailure_no_call.
  - by apply attempts_granted_with_room.
Qed.

Lemma steps_snoc evs ev p :
  steps host (evs ++ [ev]) p = step host ev (steps host evs p).
Proof. unfold steps. by rewrite foldl_app. Qed.

Lemma steps_attempts_granted evs : attempts_granted (steps host evs initial).
Proof.
  induction evs as [|ev evs IH] using rev_ind.
  - by split; constructor.
  - rewrite steps_snoc. by apply step_attempts_granted.
Qed.

Lemma exec_calls (t : Prog unit) p :
  every (fun op => forall f, op <> called f) (fun _ _ => True) t ->
  calls (exec t p) = calls p.
Proof.
  revert p. induction t as [a|e|op k IH|X rq k IH]; intros p Ht; cbn [exec].
  - done.
  - by destruct p.
  - destruct Ht as [Hop Hk]. by rewrite IH, calls_perform.
  - by destruct p, rq.
Qed.

Lemma calls_with_room f p : calls (with_room f p) = calls p.
Proof. by destruct p. Qed.

Lemma calls_with_mounted m p : calls (with_mounted m p) = calls p.
Proof. by destruct p. Qed.

(** *** Running to completion is one schedule of the event loop *)

Lemma decode_encode {X : Type} (rq : Request X) r : decode rq (encode rq r) = Some r.
Proof. by destruct rq. Qed.

Lemma pending_perform op p : pending (perform op p) = pending p.
Proof. by destruct p, op. Qed.

Lemma pending_await {X : Type} (rq : Request X) r p :
  pending (settling rq r (issue rq p)) = pending p.
Proof. by destruct p, rq. Qed.

Lemma pending_issue {X : Type} (rq : Request X) p : pending (issue rq p) = pending p.
Proof. by destruct p, rq. Qed.

Lemma settle_parked {X : Type} (rq : Request X) (k : Result X -> Prog unit) r p :
  step host (settle (length (pending p)) (encode rq r))
    (with_pending (fun l => l ++ [mkTask rq k]) (issue rq p))
  = exec (k r) (settling rq r (issue rq p)).
Proof.
  rewrite <- (pending_issue rq p).
  destruct (issue rq p) as [perm rm mnt pend tr cl].
  unfold step. cbn [pending with_pending].
  rewrite list_lookup_middle by done. cbn [awaited resume].
  rewrite decode_encode, delete_middle, app_nil_r. done.
Qed.

(** Settling each promise of a handler as soon as it is parked gives the
    page that the run against the same world gives; a rejection that nobody
    handles is logged. *)
Lemma exec_at_once w (t : Prog unit) p :
  steps host (at_once w (length (pending p)) t) (exec t p) = dropped (run w t p).
Proof.
  revert p. induction t as [a|e|op k IH|X rq k IH]; intros p.
  - done.
  - done.
  - cbn [exec run at_once]. rewrite <- (pending_perform op p). apply IH.
  - cbn [exec run at_once]. unfold steps. cbn [foldl].
    rewrite settle_parked. rewrite <- (pending_await rq (w _ rq) p). apply IH.
Qed.

(** *** Connect attempts *)

(** C2, as the code has it.  Along every sequence of events from the
    first render, every entry of the connect sequence finds the permission
    granted.  An event other than the settling of a promise enters the
    connect sequence only when it is a click on the start button, which is
    rendered only with the permission granted and the agent state
    ["disconnected"].  A click on the request button is received only with
    the agent state ["disconnected"] and the permission not granted; the
    connect sequence it leads to is entered later, when the microphone
    request settles, and is not tied to the agent state of that moment. *)
Theorem connect_attempts_gated evs :
  let p := steps host evs initial in
  Forall (fun c => permission_at_call c = granted) (calls p)
  /\ (forall ev, (forall i a, ev <> settle i a) ->
       calls (step host ev p) = calls p
       \/ (ev = click StartConversation
           /\ micPermission p = granted
           /\ agentState (room p) = "disconnected"
           /\ calls (step host ev p)
              = calls p ++ [mkCall "onConnectButtonClicked" granted "disconnected"]))
  /\ (step host (click RequestMicrophoneAccess) p <> p ->
      micPermission p <> granted /\ agentState (room p) = "disconnected").
Proof.
  intros p. split; [apply steps_attempts_granted|]. split.
  - intros ev Hev. destruct ev as [| |b|i a|e|n]; unfold step.
    + left. destruct (mounted p); [done|].
      by rewrite calls_with_mounted, exec_calls by apply checkMicPermission_no_call.
    + left. apply calls_with_mounted.
    + destruct (mounted p); [|by left]. case_bool_decide as Hb; [|by left].
      destruct b; unfold andb, onClick.
      * left. unfold requestMicPermission.
        cbn [try_catch bind mbind Prog_bind await exec]. by destruct p.
      * right. destruct (buttons_StartConversation p Hb) as [Hperm Hstate].
        repeat split; [done|done|].
        rewrite onConnectButtonClicked_unfold. cbn [exec].
        rewrite exec_calls, calls_called by (by apply connect_body_every).
        by rewrite Hperm, Hstate.
      * left. apply calls_with_room.
    + by destruct (Hev i a).
    + left. destruct (mounted p); [|done].
      by rewrite exec_calls by apply onDeviceFailure_no_call.
    + left. apply calls_with_room.
  - unfold step. destruct (mounted p); [|done].
    case_bool_decide as Hb; [|done]. intros _.
    by apply buttons_RequestMicrophoneAccess.
Qed.

(** *** The device-failure listener *)

Lemma device_failure_step e p :
  step host (MediaDevicesError e) p
  = if mounted p
    then perform (alert device_failure_notice) (perform (console_error "" e) p)
    else p.
Proof. reflexivity. Qed.



(** *** Leaving *)

(** Where the control is rendered the click is handed to the room. *)
Lemma disconnect_when_rendered p :
  mounted p = true ->
  agentState (room p) <> "disconnected" ->
  agentState (room p) <> "connecting" ->
  step host (click Disconnect) p = with_room (react disconnect_clicked) p.
Proof.
  intros Hm Hd Hc. unfold step. rewrite Hm.
  case_bool_decide as Hb; [done|].
  destruct Hb. by apply buttons_Disconnect.
Qed.

End Loop.

(** ** Further properties of the handlers *)

Section Further.
Context {Room : Type} `{!RoomSDK Room} (host : Host).
Implicit Types (p : Page Room) (w : World) (ev : Event).

(** *** The order of the promises *)

Lemma completes_bind_lift {A B : Type} ks (r : Result A) (f : A -> Prog B) :
  (forall a, r = Fulfilled a -> completes ks (f a)) -> completes ks (bind (lift r) f).
Proof. destruct r; cbn; auto. Qed.

Lemma run_completes {A : Type} ks w (t : Prog A) p :
  completes ks t ->
  exists new n,
    trace (run w t p).1 = trace p ++ new
    /\ omap issued_kind new = take n ks
    /\ (forall a, (run w t p).2 = Fulfilled a -> n = length ks).
Proof.
  revert ks p. induction t as [a|e|op k IH|X rq k IH]; intros ks p Ht.
  - exists [], 0. cbn in *. rewrite app_nil_r. subst ks. done.
  - exists [], 0. cbn. rewrite app_nil_r. by rewrite take_0.
  - destruct (IH ks (perform op p) Ht) as (new & n & Htrace & Hkinds & Hdone).
    exists (did op :: new), n. cbn [run]. rewrite Htrace, trace_perform, <- app_assoc.
    done.
  - destruct ks as [|k0 ks]; [done|]. destruct Ht as [Hk0 Hk].
    destruct (IH (w _ rq) ks (settling rq (w _ rq) (issue rq p)) (Hk _))
      as (new & n & Htrace & Hkinds & Hdone).
    exists (issued rq :: settled rq (w _ rq) :: new), (S n).
    cbn [run]. rewrite Htrace, trace_await, <- app_assoc.
    split; [done|]. split.
    + cbn. by rewrite Hkinds, Hk0.
    + intros a Ha. cbn. f_equal. by eapply Hdone.
Qed.

Lemma onConnectButtonClicked_completes :
  completes connect_steps (onConnectButtonClicked host).
Proof.
  rewrite onConnectButtonClicked_unfold.
  unfold connect_body, join, mbind, Prog_bind, await. cbn [completes].
  apply completes_bind_lift; intros href _. split; [done|]. intros r1.
  apply completes_bind_lift; intros response _. split; [done|]. intros r2.
  apply completes_bind_lift; intros data _.
  apply completes_bind_lift; intros u _.
  apply completes_bind_lift; intros t _. split; [done|]. intros r3.
  apply completes_bind_lift; intros _ _. split; [done|]. intros r4.
  by destruct r4.
Qed.

(** X1.  Whatever the outside world answers, the promises that the connect
    sequence asks for are an initial part of: the fetch, the parsing of the
    body, the room join, the enabling of the microphone, each at most once
    and in this order; and the sequence is fulfilled only after all four. *)
Theorem connect_requests_in_order w p :
  exists new n,
    trace (run w (onConnectButtonClicked host) p).1 = trace p ++ new
    /\ omap issued_kind new = take n connect_steps
    /\ ((run w (onConnectButtonClicked host) p).2 = Fulfilled tt -> n = 4).
Proof.
  destruct (run_completes connect_steps w (onConnectButtonClicked host) p
              onConnectButtonClicked_completes) as (new & n & Htrace & Hkinds & Hdone).
  exists new, n. split; [done|]. split; [done|]. intros Hrun. by apply (Hdone tt).
Qed.

(** *** A failed start *)

Lemma run_pending {A : Type} w (t : Prog A) p : pending (run w t p).1 = pending p.
Proof.
  revert p. induction t as [a|e|op k IH|X rq k IH]; intros p; cbn [run fst]; auto.
  - by rewrite IH, pending_perform.
  - by rewrite IH, pending_await.
Qed.

Lemma connect_ops w p :
  exists new,
    trace (run w (onConnectButtonClicked host) p).1 = trace p ++ new
    /\ omap op_of new = [called "onConnectButtonClicked"].
Proof.
  rewrite onConnectButtonClicked_unfold. cbn [run].
  destruct (run_trace (fun _ => False) (fun _ _ => True) w (connect_body host)
              (perform (called "onConnectButtonClicked") p)) as (new & -> & Hnew).
  { by apply connect_body_every. }
  exists (did (called "onConnectButtonClicked") :: new).
  rewrite trace_perform, <- app_assoc. split; [done|].
  cbn. f_equal. apply (omap_entry_ok _ _ _ _ Hnew).
  by intros [op|X rq|X rq r|e].
Qed.

Lemma click_StartConversation p :
  mounted p = true -> StartConversation ∈ buttons p ->
  step host (click StartConversation) p = exec (onConnectButtonClicked host) p.
Proof.
  intros Hm Hb. unfold step. rewrite Hm. by rewrite bool_decide_eq_true_2.
Qed.

Lemma log_frame en p :
  trace (log en p) = trace p ++ [en]
  /\ micPermission (log en p) = micPermission p
  /\ pending (log en p) = pending p
  /\ room (log en p) = room p.
Proof. by destruct p. Qed.

(** X3.  A connect sequence started from the start button and failing, at
    any step, is silent: settled as soon as each promise is parked, it shows
    no alert, writes nothing to the console and sets no permission (its only
    synchronous effect is the entry mark); the permission is what it was,
    nothing stays parked, and the failure ends as a rejection nobody
    handles. *)
Theorem start_failure_is_silent w p e :
  mounted p = true ->
  StartConversation ∈ buttons p ->
  (run w (onConnectButtonClicked host) p).2 = Rejected e ->
  exists new,
    trace (steps host (at_once w (length (pending p)) (onConnectButtonClicked host))
             (step host (click StartConversation) p))
    = trace p ++ new ++ [unhandled_rejection e]
    /\ omap op_of new = [called "onConnectButtonClicked"]
    /\ micPermission
         (steps host (at_once w (length (pending p)) (onConnectButtonClicked host))
            (step host (click StartConversation) p))
       = micPermission p
    /\ pending
         (steps host (at_once w (length (pending p)) (onConnectButtonClicked host))
            (step host (click StartConversation) p))
       = pending p.
Proof.
  intros Hm Hb Hfail.
  rewrite (click_StartConversation p Hm Hb), exec_at_once.
  unfold dropped. rewrite Hfail.
  destruct (log_frame (unhandled_rejection e) (run w (onConnectButtonClicked host) p).1)
    as (-> & -> & -> & _).
  destruct (connect_ops w p) as (new & -> & Hops).
  exists new. rewrite <- app_assoc. split; [done|]. split; [done|].
  split; [apply connect_micPermission|apply run_pending].
Qed.

(** *** What a click leaves rendered *)



Lemma requestMicPermission_unfold :
  requestMicPermission host
  = Await getUserMedia_audio (requestMicPermission_resumed host).
Proof. reflexivity. Qed.

Lemma checkMicPermission_unfold :
  checkMicPermission = Await getUserMedia_audio checkMicPermission_resumed.
Proof. reflexivity. Qed.

Lemma exec_request_frame p :
  room (exec (requestMicPermission host) p) = room p
  /\ micPermission (exec (requestMicPermission host) p) = micPermission p
  /\ mounted (exec (requestMicPermission host) p) = mounted p
  /\ calls (exec (requestMicPermission host) p) = calls p
  /\ trace (exec (requestMicPermission host) p) = trace p ++ [issued getUserMedia_audio]
  /\ pending (exec (requestMicPermission host) p)
     = pending p ++ [mkTask getUserMedia_audio (requestMicPermission_resumed host)].
Proof. rewrite requestMicPermission_unfold. by destruct p. Qed.

Lemma click_RequestMicrophoneAccess p :
  mounted p = true -> RequestMicrophoneAccess ∈ buttons p ->
  step host (click RequestMicrophoneAccess) p = exec (requestMicPermission host) p.
Proof.
  intros Hm Hb. unfold step. rewrite Hm. by rewrite bool_decide_eq_true_2.
Qed.

Lemma media_requests_app tr new :
  media_requests (tr ++ new) = media_requests tr + media_requests new.
Proof. unfold media_requests. by rewrite omap_app, filter_app, length_app. Qed.

Lemma media_requests_microphone :
  media_requests [issued getUserMedia_audio] = 1.
Proof. reflexivity. Qed.


(** *** What parked handlers can still do *)

Lemma exec_mounted (t : Prog unit) p : mounted (exec t p) = mounted p.
Proof.
  revert p. induction t as [a|e|op k IH|X rq k IH]; intros p; cbn [exec].
  - done.
  - by destruct p.
  - rewrite IH. by destruct p, op.
  - by destruct p, rq.
Qed.

Lemma exec_trace P Q (t : Prog unit) p :
  every P Q t ->
  exists new, trace (exec t p) = trace p ++ new /\ Forall (entry_ok P Q) new.
Proof.
  revert p. induction t as [a|e|op k IH|X rq k IH]; intros p Ht; cbn [exec].
  - exists []. by rewrite app_nil_r.
  - exists [unhandled_rejection e]. destruct p. by repeat constructor.
  - destruct Ht as [Hop Hk]. destruct (IH (perform op p) Hk) as (new & -> & Hnew).
    exists (did op :: new). rewrite trace_perform, <- app_assoc.
    split; [done|]. by constructor.
  - destruct Ht as [Hrq _]. exists [issued rq]. split; [by destruct p, rq|].
    by repeat constructor.
Qed.

Lemma exec_parked_every P Q (t : Prog unit) p :
  every P Q t -> parked_every P Q p -> parked_every P Q (exec t p).
Proof.
  revert p. induction t as [a|e|op k IH|X rq k IH]; intros p Ht Hp; cbn [exec].
  - done.
  - by destruct p.
  - destruct Ht as [_ Hk]. apply IH; [done|]. by destruct p, op.
  - destruct Ht as [_ Hk]. unfold parked_every in *.
    destruct p as [perm rm mnt pend tr cl], rq; cbn in *;
      (apply Forall_app; split; [done|]); by repeat constructor.
Qed.

Lemma void_checkMicPermission_unfold :
  void checkMicPermission
  = Await getUserMedia_audio (fun r => void (checkMicPermission_resumed r)).
Proof. reflexivity. Qed.

Lemma mount_frame p :
  mounted p = false ->
  trace (step host mount p) = trace p ++ [issued getUserMedia_audio]
  /\ mounted (step host mount p) = true
  /\ pending (step host mount p)
     = pending p ++ [mkTask getUserMedia_audio (fun r => void (checkMicPermission_resumed r))]
  /\ room (step host mount p) = room p
  /\ micPermission (step host mount p) = micPermission p.
Proof.
  intros Hm. unfold step. rewrite Hm, void_checkMicPermission_unfold. by destruct p.
Qed.

Section Invariant.
Context (P : SyncOp -> Prop) (Q : forall X, Request X -> Prop).
Hypothesis probe_every : forall r, every P Q (void (checkMicPermission_resumed r)).
Hypothesis request_every : forall r, every P Q (requestMicPermission_resumed host r).
Hypothesis connect_every_PQ : every P Q (onConnectButtonClicked host).

Lemma settle_parked_every i a p :
  parked_every P Q p ->
  parked_every P Q (step host (settle i a) p)
  /\ mounted (step host (settle i a) p) = mounted p
  /\ exists new,
       trace (step host (settle i a) p) = trace p ++ new
       /\ Forall (entry_ok P Q) new.
Proof.
  intros Hp. unfold step.
  destruct (pending p !! i) as [task|] eqn:Hi;
    [|split; [done|]; split; [done|]; exists []; by rewrite app_nil_r].
  destruct (decode (awaited task) a) as [r|];
    [|split; [done|]; split; [done|]; exists []; by rewrite app_nil_r].
  assert (Htask : every P Q (resume task r)).
  { unfold parked_every in Hp. eapply Forall_lookup_1 in Hp; [|exact Hi]. apply Hp. }
  assert (Hrest : parked_every P Q (settling (awaited task) r (with_pending (delete i) p))).
  { unfold parked_every in *. destruct task as [X rq k].
    destruct p as [perm rm mnt pend tr cl], rq; cbn in *; by apply Forall_delete. }
  split; [by apply exec_parked_every|]. split.
  - rewrite exec_mounted. destruct task as [X rq k]. by destruct p, rq.
  - destruct (exec_trace P Q (resume task r)
                (settling (awaited task) r (with_pending (delete i) p)) Htask)
      as (new & -> & Hnew).
    exists (settled (awaited task) r :: new). split; [|by constructor].
    destruct task as [X rq k]. destruct p, rq; cbn; by rewrite <- app_assoc.
Qed.

Lemma step_parked_every ev p :
  parked_every P Q p -> parked_every P Q (step host ev p).
Proof using All.
  intros Hp. destruct ev as [| |b|i a|e|n].
  - unfold step. destruct (mounted p); [done|].
    rewrite void_checkMicPermission_unfold. unfold parked_every in *.
    destruct p as [perm rm mnt pend tr cl]. cbn.
    apply Forall_app. split; [done|]. by repeat constructor.
  - by destruct p.
  - unfold step. destruct (mounted p); [|done]. case_bool_decide; [|done].
    destruct b; unfold andb, onClick.
    + rewrite requestMicPermission_unfold. unfold parked_every in *.
      destruct p as [perm rm mnt pend tr cl]. cbn.
      apply Forall_app. split; [done|]. by repeat constructor.
    + by apply exec_parked_every.
    + by destruct p.
  - by apply settle_parked_every.
  - unfold step. destruct (mounted p); [|done]. by destruct p.
  - by destruct p.
Qed.

Lemma steps_parked_every evs p :
  parked_every P Q p -> parked_every P Q (steps host evs p).
Proof using All.
  revert p. induction evs as [|ev evs IH]; intros p Hp; [done|].
  apply (IH (step host ev p)). by apply step_parked_every.
Qed.

End Invariant.

Lemma probe_tail_every P Q r :
  (forall t, P (track_stop t)) ->
  P (setMicPermission granted) ->
  (forall e, P (console_log "Microphone permission not granted:" e)) ->
  P (setMicPermission prompt) ->
  every P Q (void (checkMicPermission_resumed r)).
Proof.
  intros Hstop Hgranted Hlog Hprompt.
  apply every_bind; [|done]. apply every_try_catch.
  - unfold mbind at 1, Prog_bind. apply every_bind_lift; intros stream _.
    apply every_bind; [by apply stop_all_every|]. intros _. by repeat split.
  - intros e. by repeat split.
Qed.

Lemma request_tail_every P (Q : forall X, Request X -> Prop) r :
  (forall t, P (track_stop t)) ->
  P (setMicPermission granted) ->
  every P Q (onConnectButtonClicked host) ->
  (forall e, P (console_error "Error acquiring microphone permissions:" e)) ->
  P (setMicPermission denied) ->
  P (alert microphone_denied_notice) ->
  every P Q (requestMicPermission_resumed host r).
Proof.
  intros Hstop Hgranted Hconnect Herror Hdenied Halert.
  apply every_try_catch.
  - unfold mbind at 1, Prog_bind. apply every_bind_lift; intros stream _.
    apply every_bind; [by apply stop_all_every|]. intros _. by split.
  - intros e. by repeat split.
Qed.

(** *** The microphone is asked for on mount and on request only *)

Lemma media_requests_quiet (new : list Entry) :
  Forall (entry_ok (fun _ => True) (fun _ rq => kind_of rq <> media_kind)) new ->
  media_requests new = 0.
Proof.
  intros Hnew. induction Hnew as [|en new Hen _ IH]; [done|].
  change (en :: new) with ([en] ++ new). rewrite media_requests_app, IH.
  destruct en as [op|X rq|X rq r|e]; try done.
  by destruct rq.
Qed.

Lemma no_microphone_after_the_first evs :
  parked_every (fun _ => True) (fun _ rq => kind_of rq <> media_kind)
    (steps host evs initial).
Proof.
  apply steps_parked_every; [| | |by constructor].
  - intros r. by apply probe_tail_every.
  - intros r. apply request_tail_every; try done. by apply connect_every.
  - by apply connect_every.
Qed.

(** X6.  Along every sequence of events from the first render, the
    microphone is asked for once by the mount of the page and once by each
    click received on the request button, and by nothing else: no settling
    promise, whether it succeeds or fails, no other click and no device error
    asks for it again. *)
Theorem microphone_asked_on_mount_and_request_only evs ev :
  media_requests (trace (step host ev (steps host evs initial)))
  = media_requests (trace (steps host evs initial))
    + (if asks_microphone ev (steps host evs initial) then 1 else 0).
Proof.
  pose proof (no_microphone_after_the_first evs) as Hp.
  set (p := steps host evs initial) in *.
  destruct ev as [| |b|i a|e|n]; unfold asks_microphone.
  - destruct (mounted p) eqn:Hm; cbn [negb].
    + unfold step. rewrite Hm. lia.
    + destruct (mount_frame p Hm) as (-> & _).
      by rewrite media_requests_app, media_requests_microphone.
  - unfold step. destruct p. cbn. lia.
  - destruct b.
    + destruct (mounted p) eqn:Hm; cbn [andb].
      * case_bool_decide as Hb.
        -- rewrite (click_RequestMicrophoneAccess p Hm Hb).
           destruct (exec_request_frame p) as (_ & _ & _ & _ & -> & _).
           by rewrite media_requests_app, media_requests_microphone.
        -- unfold step. rewrite Hm. cbn [andb].
           rewrite bool_decide_eq_false_2 by done. lia.
      * unfold step. rewrite Hm. cbn [andb]. lia.
    + unfold step. destruct (mounted p); [|cbn; lia].
      case_bool_decide; cbn [andb onClick]; [|lia].
      destruct (exec_trace (fun _ => True) (fun _ rq => kind_of rq <> media_kind)
                  (onConnectButtonClicked host) p) as (new & -> & Hnew).
      { by apply connect_every. }
      rewrite media_requests_app, (media_requests_quiet _ Hnew). lia.
    + unfold step. destruct (mounted p); [|cbn; lia].
      case_bool_decide; cbn [andb onClick]; [|lia]. destruct p. cbn. lia.
  - destruct (settle_parked_every _ _ i a p Hp) as (_ & _ & new & -> & Hnew).
    rewrite media_requests_app, (media_requests_quiet _ Hnew). lia.
  - rewrite device_failure_step. destruct (mounted p); [|lia].
    rewrite !trace_perform, !media_requests_app. cbn. lia.
  - unfold step. destruct p. cbn. lia.
Qed.

(** *** The device-failure notice *)

Lemma device_notices_app tr new :
  device_notices (tr ++ new) = device_notices tr ++ device_notices new.
Proof. unfold device_notices. by rewrite omap_app, filter_app. Qed.

Lemma device_notices_quiet (new : list Entry) :
  Forall (entry_ok (fun op => op <> alert device_failure_notice) (fun _ _ => True)) new ->
  device_notices new = [].
Proof.
  intros Hnew. induction Hnew as [|en new Hen _ IH]; [done|].
  change (en :: new) with ([en] ++ new). rewrite device_notices_app, IH, app_nil_r.
  destruct en as [op|X rq|X rq r|e]; try done.
  destruct op; try done. unfold device_notices.
  change (omap alert_of [did (alert msg)]) with [msg].
  rewrite filter_cons_False; [done|]. cbn in Hen. by intros ->.
Qed.

Lemma device_notice_shown e :
  device_notices [did (console_error "" e); did (alert device_failure_notice)]
  = [device_failure_notice].
Proof. reflexivity. Qed.

Lemma no_device_notice_from_handlers evs p :
  parked_every (fun op => op <> alert device_failure_notice) (fun _ _ => True) p ->
  parked_every (fun op => op <> alert device_failure_notice) (fun _ _ => True)
    (steps host evs p).
Proof.
  apply steps_parked_every.
  - intros r. by apply probe_tail_every.
  - intros r. apply request_tail_every; try done. by apply connect_every.
  - by apply connect_every.
Qed.

Lemma step_device_notices ev p :
  parked_every (fun op => op <> alert device_failure_notice) (fun _ _ => True) p ->
  device_notices (trace (step host ev p))
  = device_notices (trace p)
    ++ replicate (delivered [ev] (mounted p)) device_failure_notice
  /\ mounted (step host ev p)
     = match ev with mount => true | unmount => false | _ => mounted p end.
Proof.
  intros Hp. destruct ev as [| |b|i a|e|n]; cbn [delivered replicate].
  - destruct (mounted p) eqn:Hm.
    + unfold step. rewrite Hm. by rewrite app_nil_r.
    + destruct (mount_frame p Hm) as (-> & -> & _).
      by rewrite device_notices_app.
  - unfold step. destruct p. cbn. by rewrite app_nil_r.
  - rewrite app_nil_r. unfold step. destruct (mounted p) eqn:Hm; [|done].
    case_bool_decide; [|done]. destruct b; cbn [andb onClick].
    + destruct (exec_request_frame p) as (_ & _ & -> & _ & -> & _).
      by rewrite device_notices_app, app_nil_r.
    + rewrite exec_mounted.
      destruct (exec_trace (fun op => op <> alert device_failure_notice) (fun _ _ => True)
                  (onConnectButtonClicked host) p) as (new & -> & Hnew).
      { by apply connect_every. }
      by rewrite device_notices_app, (device_notices_quiet _ Hnew), app_nil_r.
    + by destruct p.
  - rewrite app_nil_r.
    destruct (settle_parked_every _ _ i a p Hp) as (_ & -> & new & -> & Hnew).
    by rewrite device_notices_app, (device_notices_quiet _ Hnew), app_nil_r.
  - rewrite device_failure_step. destruct (mounted p) eqn:Hm.
    + rewrite !trace_perform, <- app_assoc, device_notices_app. cbn [app].
      rewrite device_notice_shown. split; [done|]. by destruct p.
    + by rewrite app_nil_r.
  - unfold step. destruct p. cbn. by rewrite app_nil_r.
Qed.

Lemma delivered_cons ev evs m :
  delivered (ev :: evs) m
  = delivered [ev] m
    + delivered evs (match ev with mount => true | unmount => false | _ => m end).
Proof. destruct ev, m; cbn; lia. Qed.

Lemma steps_device_notices evs p :
  parked_every (fun op => op <> alert device_failure_notice) (fun _ _ => True) p ->
  device_notices (trace (steps host evs p))
  = device_notices (trace p) ++ replicate (delivered evs (mounted p)) device_failure_notice.
Proof.
  revert p. induction evs as [|ev evs IH]; intros p Hp.
  - cbn. by rewrite app_nil_r.
  - change (steps host (ev :: evs) p) with (steps host evs (step host ev p)).
    destruct (step_device_notices ev p Hp) as [Hnotices Hmounted].
    rewrite IH by (by apply (no_device_notice_from_handlers [ev])).
    rewrite Hnotices, Hmounted, (delivered_cons ev evs), replicate_add, app_assoc. done.
Qed.

(** X7.  Along every sequence of events from the first render, the
    device-failure notice is shown once for each device error that arrives
    while the page is mounted, that is between an effect registering the
    listener and its clean-up, and never otherwise: not before the mount, not
    after an unmount, and by no click or settling promise. *)
Theorem device_notice_once_per_delivered_error evs :
  device_notices (trace (steps host evs initial))
  = replicate (delivered evs false) device_failure_notice.
Proof.
  rewrite steps_device_notices by constructor. done.
Qed.

(** *** The permission is accounted for *)

Lemma accounted_more q o a x y : accounted q o a -> accounted q (o || x) (a || y).
Proof. intros [Ho Ha]. split; intros Hq; [rewrite Ho|rewrite Ha]; done. Qed.

Lemma opened_snoc tr en :
  opened (tr ++ [en])
  = opened tr || match en with settled rq r => media_fulfilled rq r | _ => false end.
Proof. unfold opened. rewrite existsb_app. cbn. by rewrite orb_false_r. Qed.

Lemma alerted_snoc tr en :
  alerted (tr ++ [en])
  = alerted tr || match alert_of en with
                  | Some msg => bool_decide (msg = microphone_denied_notice)
                  | None => false
                  end.
Proof. unfold alerted. rewrite existsb_app. cbn. by rewrite orb_false_r. Qed.

Lemma quiet_accounts {A : Type} (t : Prog A) q o a :
  every (fun op => is_setMicPermission op = false) (fun _ _ => True) t ->
  accounted q o a -> accounts q o a t.
Proof.
  revert q o a. induction t as [x|e|op k IH|X rq k IH]; intros q o a Ht Hq; cbn in *.
  - done.
  - done.
  - destruct Ht as [Hop Hk]. destruct op; try done; try (by apply IH).
    apply IH; [done|]. rewrite <- (orb_false_r o). by apply accounted_more.
  - destruct Ht as [_ Hk]. split; [done|]. intros r q' o' a' Hq'.
    apply IH; [done|]. rewrite <- (orb_false_r a'). by apply accounted_more.
Qed.

Lemma quiet_try_catch_accounts {A : Type} (t : Prog A) h q o a :
  every (fun op => is_setMicPermission op = false) (fun _ _ => True) t ->
  (forall e q o a, accounts q o a (h e)) ->
  accounted q o a -> accounts q o a (try_catch t h).
Proof.
  intros Ht Hh. revert q o a.
  induction t as [x|e|op k IH|X rq k IH]; intros q o a Hq; cbn in *.
  - done.
  - apply Hh.
  - destruct Ht as [Hop Hk]. destruct op; try done; try (by apply IH).
    apply IH; [done|]. rewrite <- (orb_false_r o). by apply accounted_more.
  - destruct Ht as [_ Hk]. split; [done|]. intros r q' o' a' Hq'.
    apply IH; [done|]. rewrite <- (orb_false_r a'). by apply accounted_more.
Qed.

Lemma catch_accounts e q o a : accounts q o a (requestMicPermission_catch e).
Proof.
  cbn. rewrite bool_decide_eq_true_2, orb_true_r by done. by split.
Qed.

Lemma request_resumed_accounts r q o a :
  accounted q o a ->
  accounts q (o || media_fulfilled getUserMedia_audio r) a
    (requestMicPermission_resumed host r).
Proof.
  intros Hq. destruct r as [stream|e]; [|apply catch_accounts].
  cbn [media_fulfilled]. rewrite orb_true_r.
  change (accounts q true a
    (try_catch
       (stop_all (getTracks stream);;
        (do (setMicPermission granted);; onConnectButtonClicked host))
       requestMicPermission_catch)).
  induction (getTracks stream) as [|t tracks IH]; [|exact IH].
  change (accounts granted true a
    (try_catch (onConnectButtonClicked host) requestMicPermission_catch)).
  apply quiet_try_catch_accounts.
  - by apply connect_every.
  - intros. apply catch_accounts.
  - destruct Hq as [_ Ha]. by split.
Qed.

Lemma probe_resumed_accounts r q o a :
  accounted q o a ->
  accounts q (o || media_fulfilled getUserMedia_audio r) a
    (void (checkMicPermission_resumed r)).
Proof.
  intros [_ Ha]. destruct r as [stream|e]; [|by split].
  cbn [media_fulfilled]. rewrite orb_true_r.
  change (accounts q true a
    (void (try_catch
       (stop_all (getTracks stream);; (do (setMicPermission granted);; mret true))
       (fun error =>
          do (console_log "Microphone permission not granted:" error);;
          do (setMicPermission prompt);;
          mret false)))).
  induction (getTracks stream) as [|t tracks IH]; [by split|exact IH].
Qed.

Lemma exec_accounts (t : Prog unit) p :
  accounts (micPermission p) (opened (trace p)) (alerted (trace p)) t ->
  Forall (fun task => forall r q o a, accounted q o a ->
            accounts q (o || media_fulfilled (awaited task) r) a (resume task r))
    (pending p) ->
  permission_accounted (exec t p).
Proof.
  revert p. induction t as [x|e|op k IH|X rq k IH]; intros p Ht Hp; cbn [exec].
  - by split.
  - destruct p as [perm rm mnt pend tr cl]. split; [|done]. cbn in *.
    by rewrite opened_snoc, alerted_snoc, !orb_false_r.
  - apply IH.
    + destruct p as [perm rm mnt pend tr cl].
      destruct op; cbn in *; rewrite opened_snoc, alerted_snoc, ?orb_false_r; done.
    + by rewrite pending_perform.
  - destruct Ht as [Hq Hk]. split.
    + destruct p as [perm rm mnt pend tr cl], rq; cbn in *;
        by rewrite opened_snoc, alerted_snoc, !orb_false_r.
    + destruct p as [perm rm mnt pend tr cl], rq; cbn in *;
        (apply Forall_app; split; [done|]); by repeat constructor.
Qed.

Lemma settling_frame {X : Type} (rq : Request X) r f p :
  micPermission (settling rq r (with_pending f p)) = micPermission p
  /\ trace (settling rq r (with_pending f p)) = trace p ++ [settled rq r]
  /\ pending (settling rq r (with_pending f p)) = f (pending p).
Proof. by destruct p, rq. Qed.

Lemma step_accounts ev p :
  permission_accounted p -> permission_accounted (step host ev p).
Proof.
  intros [Hq Hp]. destruct ev as [| |b|i a|e|n].
  - unfold step. destruct (mounted p); [done|].
    assert (Hexec : permission_accounted (exec (void checkMicPermission) p)).
    { apply exec_accounts; [|done]. rewrite void_checkMicPermission_unfold.
      split; [done|]. intros. by apply probe_resumed_accounts. }
    by destruct (exec (void checkMicPermission) p).
  - by destruct p.
  - unfold step. destruct (mounted p); [|done]. case_bool_decide; [|done].
    destruct b; cbn [andb onClick].
    + apply exec_accounts; [|done]. rewrite requestMicPermission_unfold.
      split; [done|]. intros. by apply request_resumed_accounts.
    + apply exec_accounts; [|done]. apply quiet_accounts; [|done].
      by apply connect_every.
    + by destruct p.
  - unfold step. destruct (pending p !! i) as [task|] eqn:Hi; [|done].
    destruct (decode (awaited task) a) as [r|]; [|done].
    pose proof (Forall_lookup_1 _ _ _ _ Hp Hi) as Htask. cbn beta in Htask.
    destruct task as [X rq k]. cbn [awaited_type awaited resume] in *.
    destruct (settling_frame rq r (delete i) p) as (Hperm & Htrace & Hpend).
    apply exec_accounts.
    + rewrite Hperm, Htrace, opened_snoc, alerted_snoc. cbn [alert_of].
      rewrite orb_false_r. by apply Htask.
    + rewrite Hpend. by apply Forall_delete.
  - unfold step. destruct (mounted p); [|done].
    apply exec_accounts; [|done]. apply quiet_accounts; [|done]. by repeat split.
  - by destruct p.
Qed.

(** X9.  Along every sequence of events from the first render, whenever
    the event loop is at rest the permission is accounted for by what has
    happened: it is [granted] only if a microphone request has been
    fulfilled, and [denied] only if the microphone-denied notice has been
    shown. *)
Theorem permission_is_accounted_for evs :
  (micPermission (steps host evs initial) = granted ->
   opened (trace (steps host evs initial)) = true)
  /\ (micPermission (steps host evs initial) = denied ->
      alerted (trace (steps host evs initial)) = true).
Proof.
  assert (Hinv : permission_accounted (steps host evs initial)).
  { induction evs as [|ev evs IH] using rev_ind.
    - split; [by split|constructor].
    - rewrite steps_snoc. by apply step_accounts. }
  exact (proj1 Hinv).
Qed.

(** *** Bodies that are not an object *)

Lemma run_bind_raw {A B : Type} w (t : Prog A) (f : A -> Prog B) p :
  run w (bind t f) p =
    match run w t p with
    | (p', Fulfilled a) => run w (f a) p'
    | (p', Rejected e) => (p', Rejected e)
    end.
Proof. apply run_bind. Qed.

Lemma run_join_values w data u t p :
  get_property data "serverUrl" = Fulfilled u ->
  get_property data "participantToken" = Fulfilled t ->
  run w (join data) p =
    match w _ (room_connect u t) with
    | Fulfilled _ =>
        (settling (setMicrophoneEnabled true) (w _ (setMicrophoneEnabled true))
           (issue (setMicrophoneEnabled true)
              (settling (room_connect u t) (w _ (room_connect u t))
                 (issue (room_connect u t) p))),
         w _ (setMicrophoneEnabled true))
    | Rejected e =>
        (settling (room_connect u t) (w _ (room_connect u t))
           (issue (room_connect u t) p), Rejected e)
    end.
Proof.
  intros Hu Ht. unfold join, mbind, Prog_bind. rewrite Hu, Ht. cbn [bind lift].
  rewrite run_bind_raw, run_await.
  destruct (w _ (room_connect u t)); [apply run_await|done].
Qed.

Lemma run_join_throw w data e p :
  get_property data "serverUrl" = Rejected e ->
  run w (join data) p = (p, Rejected e).
Proof. intros Hu. unfold join, mbind, Prog_bind. by rewrite Hu. Qed.

(** X10.  What the connect sequence makes of a body that is valid JSON but
    not an object.  A body [null] makes it reject with the TypeError of the
    property read, before the room is asked for anything.  A boolean, a
    number, a string or an array has neither property: [room.connect] is
    called with two [undefined] arguments. *)
Theorem connect_with_body_that_is_no_object w p href response data :
  new_URL host (connection_details_endpoint host) (location_origin host) = Fulfilled href ->
  w _ (fetch href) = Fulfilled response ->
  w _ (response_json response) = Fulfilled data ->
  (data = JNull ->
   (run w (onConnectButtonClicked host) p).2 = Rejected (cannot_read "null" "serverUrl")
   /\ room (run w (onConnectButtonClicked host) p).1 = room p
   /\ omap room_connect_of (trace (run w (onConnectButtonClicked host) p).1)
      = omap room_connect_of (trace p))
  /\ (data <> JNull -> data <> JUndefined -> (forall props, data <> JObject props) ->
      omap room_connect_of (trace (run w (onConnectButtonClicked host) p).1)
      = omap room_connect_of (trace p) ++ [(JUndefined, JUndefined)]).
Proof.
  intros Hurl Hfetch Hjson.
  rewrite (connect_run_json _ _ _ _ _ Hurl Hfetch), Hjson, run_bind, run_lift.
  split.
  - intros ->. rewrite (run_join_throw w JNull (cannot_read "null" "serverUrl")) by done.
    cbn [fst snd]. split; [done|].
    rewrite !room_await, room_perform by done. split; [done|].
    rewrite !trace_await, trace_perform, !omap_app. cbn. by rewrite !app_nil_r.
  - intros Hnull Hundefined Hobject.
    rewrite (run_join_values w data JUndefined JUndefined);
      [|destruct data; try done; by destruct (Hobject props)..].
    destruct (w _ (room_connect JUndefined JUndefined)); cbn [fst];
      rewrite !trace_await, trace_perform, !omap_app; cbn; by rewrite !app_nil_r.
Qed.

(** *** The handlers of the mount and of the request button never reject *)

Lemma never_throws_try_catch {A : Type} (t : Prog A) h :
  (forall e, never_throws (h e)) -> never_throws (try_catch t h).
Proof. intros Hh. induction t as [x|e|op k IH|X rq k IH]; cbn; auto. Qed.

Lemma never_throws_bind {A B : Type} (t : Prog A) (f : A -> Prog B) :
  never_throws t -> (forall x, never_throws (f x)) -> never_throws (t ≫= f).
Proof.
  unfold mbind, Prog_bind. intros Ht Hf.
  induction t as [x|e|op k IH|X rq k IH]; cbn in *; auto.
Qed.

Lemma probe_never_throws r : never_throws (void (checkMicPermission_resumed r)).
Proof.
  apply never_throws_bind; [|done]. apply never_throws_try_catch. by intros e.
Qed.

Lemma request_never_throws r : never_throws (requestMicPermission_resumed host r).
Proof. apply never_throws_try_catch. by intros e. Qed.

Lemma rejections_snoc tr en :
  rejection_of en = None ->
  omap rejection_of (tr ++ [en]) = omap rejection_of tr.
Proof. intros Hen. rewrite omap_app. cbn. by rewrite Hen, app_nil_r. Qed.

Lemma exec_never_throws (t : Prog unit) p :
  never_throws t ->
  parked_never_throw p ->
  parked_never_throw (exec t p)
  /\ omap rejection_of (trace (exec t p)) = omap rejection_of (trace p).
Proof.
  revert p. induction t as [x|e|op k IH|X rq k IH]; intros p Ht Hp; cbn [exec].
  - done.
  - done.
  - destruct (IH (perform op p) Ht) as [Hparked ->].
    + unfold parked_never_throw in *. by rewrite pending_perform.
    + split; [done|]. rewrite trace_perform. by apply rejections_snoc.
  - unfold parked_never_throw in *.
    destruct p as [perm rm mnt pend tr cl], rq; cbn in *;
      (split; [apply Forall_app; split; [done|]; by repeat constructor|]);
      by apply rejections_snoc.
Qed.

Lemma step_never_throws ev p :
  ev <> click StartConversation ->
  parked_never_throw p ->
  parked_never_throw (step host ev p)
  /\ omap rejection_of (trace (step host ev p)) = omap rejection_of (trace p).
Proof.
  intros Hev Hp. destruct ev as [| |b|i a|e|n].
  - unfold step. destruct (mounted p); [done|].
    destruct (exec_never_throws (void checkMicPermission) p) as [Hparked Htrace];
      [rewrite void_checkMicPermission_unfold; intros r; apply probe_never_throws|done|].
    by destruct (exec (void checkMicPermission) p).
  - by destruct p.
  - unfold step. destruct (mounted p); [|done]. case_bool_decide; [|done].
    destruct b; cbn [andb onClick]; [|done|by destruct p].
    apply exec_never_throws; [|done].
    rewrite requestMicPermission_unfold. intros r. apply request_never_throws.
  - unfold step. destruct (pending p !! i) as [task|] eqn:Hi; [|done].
    destruct (decode (awaited task) a) as [r|]; [|done].
    pose proof (Forall_lookup_1 _ _ _ _ Hp Hi) as Htask. cbn beta in Htask.
    destruct task as [X rq k]. cbn [awaited_type awaited resume] in *.
    destruct (settling_frame rq r (delete i) p) as (_ & Htrace & Hpend).
    destruct (exec_never_throws (k r) (settling rq r (with_pending (delete i) p)))
      as [Hparked ->]; [done| |].
    + unfold parked_never_throw in *. rewrite Hpend. by apply Forall_delete.
    + split; [done|]. rewrite Htrace. by apply rejections_snoc.
  - unfold step. destruct (mounted p); [|done]. by apply exec_never_throws.
  - by destruct p.
Qed.

Lemma steps_never_throw evs p :
  Forall (fun ev => ev <> click StartConversation) evs ->
  parked_never_throw p ->
  omap rejection_of (trace (steps host evs p)) = omap rejection_of (trace p).
Proof.
  intros Hevs. revert p. induction Hevs as [|ev evs Hev _ IH]; intros p Hp; [done|].
  change (steps host (ev :: evs) p) with (steps host evs (step host ev p)).
  destruct (step_never_throws ev p Hev Hp) as [Hparked <-]. by apply IH.
Qed.

(** *** The microphone-denied notice comes with the denial *)

Lemma microphone_notices_app tr new :
  microphone_notices (tr ++ new) = microphone_notices tr ++ microphone_notices new.
Proof. unfold microphone_notices. by rewrite omap_app, filter_app. Qed.

Lemma microphone_notices_cons en new :
  microphone_notices (en :: new) = microphone_notices [en] ++ microphone_notices new.
Proof. apply (microphone_notices_app [en]). Qed.

Lemma microphone_notices_alert msg :
  microphone_notices [did (alert msg)]
  = if bool_decide (msg = microphone_denied_notice) then [microphone_denied_notice] else [].
Proof.
  unfold microphone_notices. change (omap alert_of [did (alert msg)]) with [msg].
  case_bool_decide as Hmsg.
  - rewrite filter_cons_True by done. by rewrite Hmsg.
  - by rewrite filter_cons_False.
Qed.

Lemma quiet_denies {A : Type} (t : Prog A) q :
  every (fun op => op <> alert microphone_denied_notice) (fun _ _ => True) t ->
  denies false q t.
Proof.
  revert q. induction t as [x|e|op k IH|X rq k IH]; intros q Ht; cbn in *.
  - done.
  - done.
  - destruct Ht as [Hop Hk]. destruct op; auto.
    case_bool_decide as Hmsg; [|auto]. by subst msg.
  - destruct Ht as [_ Hk]. split; [done|]. auto.
Qed.

Lemma quiet_try_catch_denies {A : Type} (t : Prog A) h q :
  every (fun op => op <> alert microphone_denied_notice) (fun _ _ => True) t ->
  (forall e q, denies false q (h e)) ->
  denies false q (try_catch t h).
Proof.
  intros Ht Hh. revert q.
  induction t as [x|e|op k IH|X rq k IH]; intros q; cbn in *.
  - done.
  - apply Hh.
  - destruct Ht as [Hop Hk]. destruct op; auto.
    case_bool_decide as Hmsg; [|auto]. by subst msg.
  - destruct Ht as [_ Hk]. split; [done|]. auto.
Qed.

Lemma catch_denies e q : denies false q (requestMicPermission_catch e).
Proof. cbn. by rewrite bool_decide_eq_true_2. Qed.

Lemma request_resumed_denies r q :
  denies false q (requestMicPermission_resumed host r).
Proof.
  apply quiet_try_catch_denies; [|apply catch_denies].
  unfold mbind at 1, Prog_bind. apply every_bind_lift; intros stream _.
  apply every_bind; [by apply stop_all_every|]. intros _.
  split; [done|]. by apply connect_every.
Qed.

Lemma probe_resumed_denies r q :
  denies false q (void (checkMicPermission_resumed r)).
Proof. apply quiet_denies. by apply probe_tail_every. Qed.

Lemma exec_denies shown (t : Prog unit) p :
  denies shown (micPermission p) t ->
  parked_deny p ->
  parked_deny (exec t p)
  /\ exists new,
       trace (exec t p) = trace p ++ new
       /\ (microphone_notices new = []
           /\ (shown = true -> micPermission (exec t p) = denied)
           \/ shown = false
              /\ microphone_notices new = [microphone_denied_notice]
              /\ micPermission (exec t p) = denied).
Proof.
  revert shown p. induction t as [x|e|op k IH|X rq k IH]; intros shown p Ht Hp;
    cbn [exec].
  - split; [done|]. exists []. rewrite app_nil_r. split; [done|]. by left.
  - split; [by destruct p|]. exists [unhandled_rejection e].
    split; [by destruct p|]. left. split; [done|]. intros Hs. cbn in Ht.
    destruct p. by apply Ht.
  - assert (Hperform : parked_deny (perform op p))
      by (unfold parked_deny in *; by rewrite pending_perform).
    assert (Hstep : forall shown',
      denies shown' (micPermission (perform op p)) k ->
      microphone_notices [did op] = [] ->
      parked_deny (exec k (perform op p))
      /\ exists new,
           trace (exec k (perform op p)) = trace p ++ new
           /\ (microphone_notices new = []
               /\ (shown' = true -> micPermission (exec k (perform op p)) = denied)
               \/ shown' = false
                  /\ microphone_notices new = [microphone_denied_notice]
                  /\ micPermission (exec k (perform op p)) = denied)).
    { intros shown' Hk Hquiet.
      destruct (IH shown' (perform op p) Hk Hperform) as (Hparked & new & -> & Hnew).
      split; [done|]. exists (did op :: new).
      rewrite trace_perform, <- app_assoc. split; [done|].
      by rewrite microphone_notices_cons, Hquiet. }
    destruct op; try (apply Hstep; [by destruct p|done]).
    pose proof (microphone_notices_alert msg) as Hmsg.
    cbn [denies] in Ht. destruct (bool_decide (msg = microphone_denied_notice)).
    + destruct Ht as [-> Hk].
      destruct (IH true (perform (alert msg) p)) as (Hparked & new & -> & Hnew);
        [by destruct p|done|].
      split; [done|]. exists (did (alert msg) :: new).
      rewrite trace_perform, <- app_assoc. split; [done|]. right.
      destruct Hnew as [[Hquiet Hdenied]|[? _]]; [|done].
      by rewrite microphone_notices_cons, Hmsg, Hquiet, Hdenied.
    + apply Hstep; [by destruct p|done].
  - destruct Ht as [Hq Hk]. unfold parked_deny in *. split.
    + destruct p as [perm rm mnt pend tr cl], rq; cbn in *;
        (apply Forall_app; split; [done|]); by repeat constructor.
    + exists [issued rq]. split; [by destruct p, rq|]. left. split; [done|].
      intros Hs. destruct p, rq; by apply Hq.
Qed.

Lemma exec_denies_step (t : Prog unit) p q :
  denies false (micPermission q) t ->
  parked_deny q ->
  microphone_notices (trace q) = microphone_notices (trace p) ->
  parked_deny (exec t q)
  /\ (microphone_notices (trace (exec t q)) = microphone_notices (trace p)
      \/ microphone_notices (trace (exec t q))
         = microphone_notices (trace p) ++ [microphone_denied_notice]
         /\ micPermission (exec t q) = denied).
Proof.
  intros Ht Hq Htrace.
  destruct (exec_denies false t q Ht Hq) as (Hparked & new & -> & Hnew).
  split; [done|]. rewrite microphone_notices_app, Htrace.
  destruct Hnew as [[-> _]|(_ & -> & Hdenied)]; [left; by rewrite app_nil_r|by right].
Qed.

Lemma step_denies ev p :
  parked_deny p ->
  parked_deny (step host ev p)
  /\ (microphone_notices (trace (step host ev p)) = microphone_notices (trace p)
      \/ microphone_notices (trace (step host ev p))
         = microphone_notices (trace p) ++ [microphone_denied_notice]
         /\ micPermission (step host ev p) = denied).
Proof.
  intros Hp. destruct ev as [| |b|i a|e|n].
  - unfold step. destruct (mounted p); [by split; [|left]|].
    destruct (exec_denies_step (void checkMicPermission) p p) as [Hparked Hnotices];
      [|done|done|].
    { rewrite void_checkMicPermission_unfold. split; [done|].
      intros. apply probe_resumed_denies. }
    by destruct (exec (void checkMicPermission) p).
  - split; [by destruct p|]. left. by destruct p.
  - unfold step. destruct (mounted p); [|by split; [|left]].
    case_bool_decide; [|by split; [|left]].
    destruct b; cbn [andb onClick].
    + apply exec_denies_step; [|done|done].
      rewrite requestMicPermission_unfold. split; [done|].
      intros. apply request_resumed_denies.
    + apply exec_denies_step; [|done|done]. apply quiet_denies. by apply connect_every.
    + split; [by destruct p|]. left. by destruct p.
  - unfold step. destruct (pending p !! i) as [task|] eqn:Hi; [|by split; [|left]].
    destruct (decode (awaited task) a) as [r|]; [|by split; [|left]].
    pose proof (Forall_lookup_1 _ _ _ _ Hp Hi) as Htask. cbn beta in Htask.
    destruct task as [X rq k]. cbn [awaited_type awaited resume] in *.
    destruct (settling_frame rq r (delete i) p) as (Hperm & Htrace & Hpend).
    apply exec_denies_step; [apply Htask| |].
    + unfold parked_deny in *. rewrite Hpend. by apply Forall_delete.
    + rewrite Htrace, microphone_notices_app. by rewrite app_nil_r.
  - unfold step. destruct (mounted p); [|by split; [|left]].
    apply exec_denies_step; [|done|done]. apply quiet_denies. by repeat split.
  - split; [by destruct p|]. left. by destruct p.
Qed.

Lemma steps_parked_deny evs : parked_deny (steps host evs initial).
Proof.
  induction evs as [|ev evs IH] using rev_ind; [constructor|].
  rewrite steps_snoc. by apply step_denies.
Qed.

(** X2.  In every interleaving, the handlers that the mount and the request
    button start never reject: along a sequence of events with no click on
    the start button no rejection goes unhandled, whatever fails.  And the
    microphone-denied notice comes only with the denial: a single event
    shows it at most once, and a step that shows it ends with the permission
    at [denied]. *)
Theorem request_handlers_never_reject evs :
  (Forall (fun ev => ev <> click StartConversation) evs ->
   omap rejection_of (trace (steps host evs initial)) = [])
  /\ forall ev,
       microphone_notices (trace (step host ev (steps host evs initial)))
       = microphone_notices (trace (steps host evs initial))
       \/ microphone_notices (trace (step host ev (steps host evs initial)))
          = microphone_notices (trace (steps host evs initial))
              ++ [microphone_denied_notice]
          /\ micPermission (step host ev (steps host evs initial)) = denied.
Proof.
  split.
  - intros Hevs. rewrite (steps_never_throw evs initial Hevs); [done|constructor].
  - intros ev. apply step_denies, steps_parked_deny.
Qed.

End Further.

(** * Closed examples *)

Import Examples.

Example grant_and_connect_connected :
  let p := steps localhost grant_and_connect first_render in
  micPermission p = granted /\ agentState (room p) = "connected"
  /\ buttons p = [Disconnect] /\ length (pending p) = 0.
Proof. vm_compute. done. Qed.

Example leave_disconnects :
  let p := step localhost (click Disconnect) live in
  agentState (room p) = "disconnected" /\ buttons p = [StartConversation]
  /\ trace p = [].
Proof. vm_compute. done. Qed.

Example missing_token_reaches_the_room :
  omap room_connect_of
    (trace (run token_missing (onConnectButtonClicked localhost) ready).1)
  = [(JString "wss://x", JUndefined)]
  /\ (run token_missing (onConnectButtonClicked localhost) ready).2
     = Rejected join_refused.
Proof. by vm_compute. Qed.

Example status_is_not_read :
  (run error_status_with_credentials (onConnectButtonClicked localhost) ready).2
  = Fulfilled tt
  /\ agentState
       (room (run error_status_with_credentials (onConnectButtonClicked localhost) ready).1)
     = "connected".
Proof. by vm_compute. Qed.

Example start_then_settle_at_once :
  steps localhost (at_once all_well 0 (onConnectButtonClicked localhost))
    (step localhost (click StartConversation) ready)
  = (run all_well (onConnectButtonClicked localhost) ready).1.
Proof. by vm_compute. Qed.

(** ** Where the code departs from the specification *)

(** C1, as stated, at an unreachable endpoint: the promise is rejected with
    the error of [fetch] itself, which is not a [CredentialFetchError], and
    the agent state is still ["disconnected"], not ["error"]. *)
Lemma unreachable_endpoint_is_no_error_state :
  (run unreachable (onConnectButtonClicked localhost) ready).2 = Rejected failed_to_fetch
  /\ name failed_to_fetch <> "CredentialFetchError"
  /\ agentState (room (run unreachable (onConnectButtonClicked localhost) ready).1)
     = "disconnected"
  /\ agentState (room (run unreachable (onConnectButtonClicked localhost) ready).1)
     <> "error".
Proof. vm_compute. repeat split; discriminate. Qed.

(** C2, as stated, at two clicks on the request button: the second connect
    sequence is entered with the agent state ["connected"]. *)
Lemma second_request_connects_while_connected :
  calls (steps localhost two_requests first_render)
  = [mkCall "onConnectButtonClicked" granted "disconnected";
     mkCall "onConnectButtonClicked" granted "connected"]
  /\ ~ Forall (fun c => permission_at_call c = granted
                        /\ agentState_at_call c = "disconnected")
         (calls (steps localhost two_requests first_render)).
Proof.
  assert (Hcalls : calls (steps localhost two_requests first_render)
    = [mkCall "onConnectButtonClicked" granted "disconnected";
       mkCall "onConnectButtonClicked" granted "connected"]) by (by vm_compute).
  split; [exact Hcalls|]. rewrite Hcalls. intros Hall.
  apply Forall_cons in Hall as [_ Hall]. apply Forall_cons in Hall as [[_ Hstate] _].
  discriminate Hstate.
Qed.

(** ** Instances *)

Lemma connect_credential_failure_witness :
  new_URL localhost (connection_details_endpoint localhost) (location_origin localhost)
  = Fulfilled endpoint_href
  /\ unreachable _ (fetch endpoint_href) = Rejected failed_to_fetch
  /\ exists p', run unreachable (onConnectButtonClicked localhost) ready
                = (p', Rejected failed_to_fetch)
       /\ room p' = room ready
       /\ micPermission p' = micPermission ready
       /\ trace p' = trace ready
            ++ [did (called "onConnectButtonClicked");
                issued (fetch endpoint_href);
                settled (fetch endpoint_href) (Rejected failed_to_fetch)].
Proof.
  split; [reflexivity|]. split; [reflexivity|].
  exact (proj1 (connect_credential_failure localhost unreachable ready endpoint_href eq_refl)
           failed_to_fetch eq_refl).
Defined.

Lemma connect_attempts_gated_witness :
  (forall i a, click StartConversation <> settle i a)
  /\ (calls (step localhost (click StartConversation)
               (steps localhost probe_granted first_render))
      = calls (steps localhost probe_granted first_render)
      \/ (click StartConversation = click StartConversation
          /\ micPermission (steps localhost probe_granted first_render) = granted
          /\ agentState (room (steps localhost probe_granted first_render)) = "disconnected"
          /\ calls (step localhost (click StartConversation)
                      (steps localhost probe_granted first_render))
             = calls (steps localhost probe_granted first_render)
                 ++ [mkCall "onConnectButtonClicked" granted "disconnected"])).
Proof.
  split; [discriminate|].
  apply (proj1 (proj2 (connect_attempts_gated localhost probe_granted))). discriminate.
Defined.

Lemma requestMicPermission_grant_or_denial_witness :
  no_microphone _ getUserMedia_audio = Rejected NotAllowedError
  /\ exists p', run no_microphone (requestMicPermission localhost) ready = (p', Fulfilled tt)
       /\ micPermission p' = denied
       /\ room p' = room ready
       /\ calls p' = calls ready
       /\ trace p' = trace ready
            ++ [issued getUserMedia_audio;
                settled getUserMedia_audio (Rejected NotAllowedError);
                did (console_error "Error acquiring microphone permissions:" NotAllowedError);
                did (setMicPermission denied);
                did (alert microphone_denied_notice)].
Proof.
  split; [reflexivity|].
  exact (proj2 (requestMicPermission_grant_or_denial localhost no_microphone ready)
           NotAllowedError eq_refl).
Defined.

Lemma checkMicPermission_probe_witness :
  no_microphone _ getUserMedia_audio = Rejected NotAllowedError
  /\ exists p', run no_microphone checkMicPermission first_render = (p', Fulfilled false)
       /\ micPermission p' = prompt
       /\ trace p' = trace first_render
            ++ [issued getUserMedia_audio;
                settled getUserMedia_audio (Rejected NotAllowedError);
                did (console_log "Microphone permission not granted:" NotAllowedError);
                did (setMicPermission prompt)].
Proof.
  split; [reflexivity|].
  exact (proj1 (proj2 (checkMicPermission_probe no_microphone first_render))
           NotAllowedError eq_refl).
Defined.

Lemma connect_failure_after_grant_reads_as_denial_witness :
  unreachable _ getUserMedia_audio = Fulfilled microphone
  /\ (run unreachable (onConnectButtonClicked localhost) (granted_page microphone ready)).2
     = Rejected failed_to_fetch
  /\ exists p', run unreachable (requestMicPermission localhost) ready = (p', Fulfilled tt)
       /\ micPermission p' = denied
       /\ trace p'
          = trace (run unreachable (onConnectButtonClicked localhost)
                     (granted_page microphone ready)).1
              ++ [did (console_error "Error acquiring microphone permissions:" failed_to_fetch);
                  did (setMicPermission denied);
                  did (alert microphone_denied_notice)]
       /\ did (setMicPermission granted) ∈ trace p'.
Proof.
  split; [reflexivity|]. split; [reflexivity|].
  exact (connect_failure_after_grant_reads_as_denial localhost unreachable ready
           microphone failed_to_fetch eq_refl eq_refl).
Defined.

Lemma connect_failure_keeps_permission_witness :
  (run server_error (onConnectButtonClicked localhost) ready).2 = Rejected not_json
  /\ micPermission (run server_error (onConnectButtonClicked localhost) ready).1
     = micPermission ready.
Proof.
  split; [reflexivity|].
  exact (proj1 (connect_failure_keeps_permission localhost server_error ready not_json
                  eq_refl)).
Defined.

Lemma credential_endpoint_resolution_witness :
  NEXT_PUBLIC_CONN_DETAILS_ENDPOINT localhost = None
  /\ new_URL localhost "/api/connection-details" (location_origin localhost)
     = Fulfilled endpoint_href
  /\ omap fetch_of (trace (run all_well (onConnectButtonClicked localhost) ready).1)
     = omap fetch_of (trace ready) ++ [endpoint_href].
Proof.
  split; [reflexivity|]. split; [reflexivity|].
  exact (proj1 (credential_endpoint_resolution localhost all_well ready endpoint_href)
           eq_refl eq_refl).
Defined.


(** ** Instances of the further properties *)

Example late_probe_ends_at_prompt :
  micPermission (steps localhost late_probe first_render) = prompt
  /\ microphone_notices (trace (steps localhost late_probe first_render))
     = [microphone_denied_notice]
  /\ length (pending (steps localhost late_probe first_render)) = 0.
Proof. by vm_compute. Qed.

Lemma request_handlers_never_reject_witness :
  Forall (fun ev => ev <> click StartConversation) late_probe
  /\ omap rejection_of (trace (steps localhost late_probe first_render)) = [].
Proof.
  assert (Hevs : Forall (fun ev => ev <> click StartConversation) late_probe)
    by (repeat constructor; discriminate).
  split; [exact Hevs|].
  exact (proj1 (request_handlers_never_reject localhost late_probe) Hevs).
Defined.

Lemma connect_requests_in_order_witness :
  (run all_well (onConnectButtonClicked localhost) ready).2 = Fulfilled tt
  /\ exists new n,
       trace (run all_well (onConnectButtonClicked localhost) ready).1 = trace ready ++ new
       /\ omap issued_kind new = take n connect_steps
       /\ n = 4.
Proof.
  split; [reflexivity|].
  destruct (connect_requests_in_order localhost all_well ready)
    as (new & n & Htrace & Hkinds & Hdone).
  exists new, n. split; [exact Htrace|]. split; [exact Hkinds|].
  apply Hdone. reflexivity.
Defined.

Lemma start_failure_is_silent_witness :
  mounted ready = true
  /\ StartConversation ∈ buttons ready
  /\ (run unreachable (onConnectButtonClicked localhost) ready).2 = Rejected failed_to_fetch
  /\ exists new,
       trace (steps localhost
                (at_once unreachable (length (pending ready)) (onConnectButtonClicked localhost))
                (step localhost (click StartConversation) ready))
       = trace ready ++ new ++ [unhandled_rejection failed_to_fetch]
       /\ omap op_of new = [called "onConnectButtonClicked"].
Proof.
  assert (Hb : StartConversation ∈ buttons ready) by constructor.
  split; [reflexivity|]. split; [exact Hb|]. split; [reflexivity|].
  destruct (start_failure_is_silent localhost unreachable ready failed_to_fetch
              eq_refl Hb eq_refl) as (new & Htrace & Hops & _).
  exists new. split; [exact Htrace|exact Hops].
Defined.


Lemma permission_is_accounted_for_witness :
  micPermission (steps localhost grant_and_connect first_render) = granted
  /\ opened (trace (steps localhost grant_and_connect first_render)) = true.
Proof.
  split; [reflexivity|].
  exact (proj1 (permission_is_accounted_for localhost grant_and_connect) eq_refl).
Defined.

Lemma connect_with_body_that_is_no_object_witness :
  new_URL localhost (connection_details_endpoint localhost) (location_origin localhost)
  = Fulfilled endpoint_href
  /\ null_body _ (fetch endpoint_href) = Fulfilled (mkResponse 200)
  /\ null_body _ (response_json (mkResponse 200)) = Fulfilled JNull
  /\ (run null_body (onConnectButtonClicked localhost) ready).2
     = Rejected (cannot_read "null" "serverUrl")
  /\ room (run null_body (onConnectButtonClicked localhost) ready).1 = room ready.
Proof.
  split; [reflexivity|]. split; [reflexivity|]. split; [reflexivity|].
  destruct (proj1 (connect_with_body_that_is_no_object localhost null_body ready
                     endpoint_href (mkResponse 200) JNull eq_refl eq_refl eq_refl)
              eq_refl) as (Hrun & Hroom & _).
  split; [exact Hrun|exact Hroom].
Defined.
